(** * Frontier Tower event intelligence: live fan-out, cache and rate limiter

    A shallow embedding of [api/websocket.py] (the [ConnectionManager], the
    tower-feed handler and the Redis listener) and of the Redis helpers of
    [api/intelligence.py] ([cache_get], [cache_set], [check_rate_limit]),
    with the properties of the specification stated over them.

    Python exceptions are values of [result]. There is one event loop: a
    coroutine runs without preemption from one [await] to the next, so the
    registration in [connect], [disconnect] and the cleanup of [broadcast]
    are single steps on the shared manager ([op], [step]), and what the
    other coroutines do while one coroutine is suspended at an [await] is a
    list of such steps. [broadcast_among], the handlers
    [websocket_tower_feed_among] and [websocket_floor_pulse_among] and
    [redis_listener_among] take these lists as arguments; [broadcast], the
    handlers [websocket_tower_feed] and [websocket_floor_pulse] and
    [redis_listener] are the runs during whose awaits nothing else is
    scheduled. *)

From Stdlib Require Import ZArith String Ascii List Lia.
From stdpp Require Import base option list gmap sets strings pretty.

#[local] Set Warnings "-clear-no-such-hyp".

Local Open Scope string_scope.
Local Open Scope Z_scope.

(** ** Exceptions *)

(** The exceptions met in the modelled code, all subclasses of [Exception]
    (what [except Exception] catches). *)
Inductive exn : Type :=
  | RuntimeError          (* transport used in the wrong state *)
  | WebSocketDisconnect   (* peer closed the transport *)
  | AttributeError        (* method looked up on a value that lacks it *)
  | ConnectionError       (* Redis unreachable *)
  | ResponseError.        (* Redis refused the command *)

Inductive result (A : Type) : Type :=
  | Ok (a : A)
  | Raise (e : exn).
Arguments Ok {A} a.
Arguments Raise {A} e.

#[global] Instance exn_eq_dec : EqDecision exn.
Proof. solve_decision. Defined.

#[global] Instance result_eq_dec {A} `{EqDecision A} : EqDecision (result A).
Proof. solve_decision. Defined.

#[global] Instance result_ret : MRet result := fun _ a => Ok a.
#[global] Instance result_bind : MBind result := fun _ _ f m =>
  match m with
  | Ok a => f a
  | Raise e => Raise e
  end.

(** [try: body except Exception: handler] *)
Definition try_except {A} (body : result A) (handler : exn -> result A) : result A :=
  match body with
  | Ok a => Ok a
  | Raise e => handler e
  end.

(** ** JSON values, as far as the handlers look at them *)

Inductive json : Type :=
  | JNull
  | JBool (b : bool)
  | JNum (n : Z)
  | JStr (s : string)
  | JArr (length : nat)    (* a list, of which only the length matters here *)
  | JObj (length : nat).   (* a nested object, likewise *)

#[global] Instance json_eq_dec : EqDecision json.
Proof. solve_decision. Defined.

(** Python truthiness, [if channel and ...]. *)
Definition truthy (v : json) : bool :=
  match v with
  | JNull => false
  | JBool b => b
  | JNum n => negb (n =? 0)
  | JStr s => negb (String.eqb s EmptyString)
  | JArr n | JObj n => negb (Nat.eqb n 0)
  end.

(** [d.get(key)] on a parsed JSON object: [None] (here [JNull]) when the key
    is absent. *)
Definition dict_get (d : gmap string json) (key : string) : json :=
  default JNull (d !! key).

(** [s.startswith(p)] *)
Fixpoint startswith (p s : string) : bool :=
  match p, s with
  | EmptyString, _ => true
  | String a p', String b s' => Ascii.eqb a b && startswith p' s'
  | String _ _, EmptyString => false
  end.

(** [sub in s] on strings *)
Fixpoint str_in (sub s : string) : bool :=
  startswith sub s ||
  match s with
  | EmptyString => false
  | String _ s' => str_in sub s'
  end.

(** [s.replace(old, new)] for a one-character [old], the only use in the
    source (the star of a pattern is replaced by the empty string). *)
Fixpoint replace_char (old : ascii) (new s : string) : string :=
  match s with
  | EmptyString => EmptyString
  | String c s' =>
      if Ascii.eqb c old then new +:+ replace_char old new s'
      else String c (replace_char old new s')
  end.

(** ** [api/websocket.py]: the connection manager *)

(** A [WebSocket] object is identified by its object identity (Python hashes
    it by [id]); what its transport does is given by the oracles below. *)
Abbreviation WebSocket := nat (only parsing).

(** What is handed to [send_text]: a string taken verbatim from the bus, or
    [json.dumps] of an object built by the handler. *)
Inductive payload : Type :=
  | Raw (data : string)
  | Dumps (fields : list (string * json)).

#[global] Instance payload_eq_dec : EqDecision payload.
Proof. solve_decision. Defined.

(** The transport of the peers: what [websocket.accept()] and
    [websocket.send_text(message)] do when awaited. *)
Record transport : Type := {
  accept : WebSocket -> result unit;
  send_text : WebSocket -> payload -> result unit
}.

(** One awaited [send_text]: target, message, and whether it returned. *)
Record send_event : Type := {
  ev_target : WebSocket;
  ev_message : payload;
  ev_delivered : bool
}.

#[global] Instance send_event_eq_dec : EqDecision send_event.
Proof. solve_decision. Defined.

Definition CHANNELS : list string :=
  [ "tower-ai-feed"; "floor-pulse-2"; "floor-pulse-4"; "floor-pulse-9";
    "floor-pulse-15"; "floor-pulse-16" ].

Record ConnectionManager : Type := {
  active_connections : gmap string (gset nat);
  user_channels : gmap nat (gset string)
}.

(** [ConnectionManager.__init__] *)
Definition init : ConnectionManager := {|
  active_connections := list_to_map ((fun name => (name, ∅)) <$> CHANNELS);
  user_channels := ∅
|}.

(** [ConnectionManager.connect] *)
Definition connect (tr : transport) (self : ConnectionManager)
    (websocket : WebSocket) (channel : string) : result ConnectionManager :=
  _ ← accept tr websocket;
  match active_connections self !! channel with
  | Some members =>
      let ac := <[channel := members ∪ {[websocket]}]> (active_connections self) in
      let uc :=
        match user_channels self !! websocket with
        | None => <[websocket := ∅]> (user_channels self)
        | Some _ => user_channels self
        end in
      let uc' := <[websocket := default ∅ (uc !! websocket) ∪ {[channel]}]> uc in
      Ok {| active_connections := ac; user_channels := uc' |}
  | None => Ok self
  end.

(** The body of the loop of [disconnect]:
    [if channel in self.active_connections: ...discard(websocket)]. *)
Definition discard_from (websocket : WebSocket)
    (ac : gmap string (gset nat)) (channel : string) : gmap string (gset nat) :=
  match ac !! channel with
  | Some members => <[channel := members ∖ {[websocket]}]> ac
  | None => ac
  end.

(** [ConnectionManager.disconnect] *)
Definition disconnect (self : ConnectionManager) (websocket : WebSocket)
    : ConnectionManager :=
  match user_channels self !! websocket with
  | Some channels =>
      {| active_connections :=
           foldl (discard_from websocket) (active_connections self)
                 (elements channels);
         user_channels := delete websocket (user_channels self) |}
  | None => self
  end.

(** [ConnectionManager.send_personal_message]: any exception of the send is
    logged and dropped. *)
Definition send_personal_message (tr : transport) (message : payload)
    (websocket : WebSocket) : result send_event :=
  try_except
    (_ ← send_text tr websocket message;
     Ok {| ev_target := websocket; ev_message := message; ev_delivered := true |})
    (fun _ =>
     Ok {| ev_target := websocket; ev_message := message; ev_delivered := false |}).

(** The first loop of [broadcast] when no other coroutine is scheduled
    during its awaits, so that the set it iterates over stays as it is: one
    [send_text] per member, a failing member is put into the local set
    [disconnected]. The loop over the live set, among the other coroutines,
    is [iterate_among] below. *)
Fixpoint send_all (tr : transport) (message : payload) (members : list nat)
    (disconnected : gset nat) : result (list send_event * gset nat) :=
  match members with
  | [] => Ok ([], disconnected)
  | connection :: rest =>
      '(ev, disconnected') ←
        try_except
          (_ ← send_text tr connection message;
           Ok ({| ev_target := connection; ev_message := message;
                  ev_delivered := true |}, disconnected))
          (fun _ =>
           Ok ({| ev_target := connection; ev_message := message;
                  ev_delivered := false |}, disconnected ∪ {[connection]}));
      '(log, disconnected'') ← send_all tr message rest disconnected';
      Ok (ev :: log, disconnected'')
  end.

(** [ConnectionManager.broadcast] run without another coroutine scheduled
    during its awaits; the result carries the sends that were awaited, in
    order. This is the broadcast as one operation on the manager, which is
    what the invariants of the manager need; a broadcast during whose awaits
    the handlers run, and which its loop over the live set may then leave
    with [RuntimeError], is [broadcast_among] below, and the two agree when
    nothing is scheduled (lemma [broadcast_among_alone]). *)
Definition broadcast (tr : transport) (self : ConnectionManager)
    (channel : string) (message : payload)
    : result (ConnectionManager * list send_event) :=
  match active_connections self !! channel with
  | Some members =>
      '(log, disconnected) ← send_all tr message (elements members) ∅;
      Ok (foldl disconnect self (elements disconnected), log)
  | None => Ok (self, [])
  end.

(** The operations on the manager, as the handlers and the listener call
    them, each with the transport behaviour at the time of the call. *)
Inductive op : Type :=
  | OpConnect (tr : transport) (websocket : WebSocket) (channel : string)
  | OpDisconnect (websocket : WebSocket)
  | OpBroadcast (tr : transport) (channel : string) (message : payload).

(** The manager after an operation; an exception leaves it as it was at the
    point of the raise. *)
Definition step (self : ConnectionManager) (o : op) : ConnectionManager :=
  match o with
  | OpConnect tr websocket channel =>
      match connect tr self websocket channel with
      | Ok self' => self'
      | Raise _ => self
      end
  | OpDisconnect websocket => disconnect self websocket
  | OpBroadcast tr channel message =>
      match broadcast tr self channel message with
      | Ok (self', _) => self'
      | Raise _ => self
      end
  end.

Definition run (self : ConnectionManager) (ops : list op) : ConnectionManager :=
  foldl step self ops.

(** States of the manager that the program can be in. *)
Definition reachable (self : ConnectionManager) : Prop :=
  exists ops, self = run init ops.

(** C is a member of channel X, seen from either map. *)
Definition in_channel (self : ConnectionManager) (X : string) (C : WebSocket) : Prop :=
  exists members, active_connections self !! X = Some members /\ C ∈ members.

Definition has_channel (self : ConnectionManager) (C : WebSocket) (X : string) : Prop :=
  exists channels, user_channels self !! C = Some channels /\ X ∈ channels.

Definition consistent (self : ConnectionManager) : Prop :=
  forall X C, in_channel self X C <-> has_channel self C X.

(** Number of sends to [C] in a log that returned. *)
Definition deliveries (C : WebSocket) (m : payload) (log : list send_event) : nat :=
  length (filter (fun ev => ev = {| ev_target := C; ev_message := m; ev_delivered := true |}) log).

(** Number of sends to [C] in a log, whatever their outcome. *)
Definition attempts (C : WebSocket) (log : list send_event) : nat :=
  length (filter (fun ev => ev_target ev = C) log).

(** ** [api/websocket.py]: the tower-feed handler *)

(** The body of the [while True] loop of [websocket_tower_feed], from the
    parsed [message] on. *)
Definition on_message (tr : transport) (self : ConnectionManager)
    (websocket : WebSocket) (message : gmap string json)
    : result (ConnectionManager * list send_event) :=
  if decide (dict_get message "type" = JStr "ping") then
    ev ← send_personal_message tr (Dumps [("type", JStr "pong")]) websocket;
    Ok (self, [ev])
  else if decide (dict_get message "type" = JStr "subscribe") then
    let channel := dict_get message "channel" in
    if truthy channel then
      match channel with
      | JStr name =>
          if startswith "floor-pulse-" name then
            self' ← connect tr self websocket name;
            ev ← send_personal_message tr
                   (Dumps [("type", JStr "subscribed"); ("channel", JStr name)])
                   websocket;
            Ok (self', [ev])
          else Ok (self, [])
      | _ => Raise AttributeError   (* no [startswith] on this value *)
      end
    else Ok (self, [])
  else Ok (self, []).

(** One turn of the loop inside its [try]: [frame] is what
    [json.loads(await websocket.receive_text())] gives. Both [except]
    clauses disconnect and leave the loop ([false]). *)
Definition tower_feed_turn (tr : transport) (self : ConnectionManager)
    (websocket : WebSocket) (frame : result (gmap string json))
    : ConnectionManager * list send_event * bool :=
  match frame ≫= on_message tr self websocket with
  | Ok (self', log) => (self', log, true)
  | Raise _ => (disconnect self websocket, [], false)
  end.

(** ** [api/websocket.py]: the Redis listener *)

Record bus_message : Type := {
  msg_type : string;
  msg_channel : string;
  msg_data : string
}.

(** The backend bus as the listener meets it: the outcome of the n-th
    [pubsub.subscribe] that a client attempts, and what [pubsub.listen()]
    yields ([Raise]: the iterator raised; end of list: it is exhausted). *)
Record bus : Type := {
  bus_subscribe : nat -> result unit;
  bus_listen : list (result bus_message)
}.

Record listener_run : Type := {
  lr_outcome : result unit;          (* how the coroutine ended *)
  lr_manager : ConnectionManager;
  lr_log : list send_event;
  lr_subscribes : nat;               (* [pubsub.subscribe] calls made *)
  lr_consumed : nat                  (* items taken from [pubsub.listen()] *)
}.

(** [async for message in pubsub.listen(): ...] *)
Fixpoint listen_loop (tr : transport) (self : ConnectionManager)
    (stream : list (result bus_message)) (subscribes consumed : nat)
    : listener_run :=
  match stream with
  | [] => {| lr_outcome := Ok tt; lr_manager := self; lr_log := [];
             lr_subscribes := subscribes; lr_consumed := consumed |}
  | Raise e :: _ =>
      {| lr_outcome := Raise e; lr_manager := self; lr_log := [];
         lr_subscribes := subscribes; lr_consumed := S consumed |}
  | Ok message :: rest =>
      if String.eqb (msg_type message) "message" then
        match broadcast tr self (msg_channel message) (Raw (msg_data message)) with
        | Ok (self', log) =>
            let r := listen_loop tr self' rest subscribes (S consumed) in
            {| lr_outcome := lr_outcome r; lr_manager := lr_manager r;
               lr_log := log ++ lr_log r;
               lr_subscribes := lr_subscribes r; lr_consumed := lr_consumed r |}
        | Raise e =>
            {| lr_outcome := Raise e; lr_manager := self; lr_log := [];
               lr_subscribes := subscribes; lr_consumed := S consumed |}
        end
      else listen_loop tr self rest subscribes (S consumed)
  end.

(** [redis_listener] *)
Definition redis_listener (tr : transport) (self : ConnectionManager) (b : bus)
    : listener_run :=
  match bus_subscribe b 0%nat with
  | Raise e =>
      {| lr_outcome := Raise e; lr_manager := self; lr_log := [];
         lr_subscribes := 1; lr_consumed := 0 |}
  | Ok _ => listen_loop tr self (bus_listen b) 1 0
  end.

(** ** The Redis server, as far as [api/intelligence.py] uses it *)

(** A stored value: a counter kept by INCR, or a string written by SETEX.
    A key holds its value until [expires_at], if it has one. *)
Inductive rval : Type :=
  | RInt (n : Z)
  | RStr (s : string).

Record entry : Type := {
  value : rval;
  expires_at : option Z
}.

Record Redis : Type := {
  online : bool;              (* [false]: every command raises *)
  store : gmap string entry
}.

Definition INT64_MAX : Z := 9223372036854775807.

Definition digit_of (c : ascii) : option Z :=
  let n := Z.of_N (N_of_ascii c) in
  if (48 <=? n) && (n <=? 57) then Some (n - 48) else None.

Fixpoint parse_digits (acc : Z) (s : string) : option Z :=
  match s with
  | EmptyString => Some acc
  | String c s' =>
      match digit_of c with
      | Some d => parse_digits (10 * acc + d) s'
      | None => None
      end
  end.

(** The integer a string value stands for, when INCR accepts it: a canonical
    decimal with no sign other than a leading minus. *)
Definition string2ll (s : string) : option Z :=
  match s with
  | EmptyString => None
  | String "0" EmptyString => Some 0
  | String "0" _ => None
  | String "-" EmptyString => None
  | String "-" (String "0" _) => None
  | String "-" s' => Z.opp <$> parse_digits 0 s'
  | _ => parse_digits 0 s
  end.

Definition as_int (v : rval) : option Z :=
  match v with
  | RInt n => Some n
  | RStr s => string2ll s
  end.

Definition as_string (v : rval) : string :=
  match v with
  | RInt n => pretty n
  | RStr s => s
  end.

(** The entry of a key at time [now]; an expired entry is gone. *)
Definition lookup_live (now : Z) (key : string) (r : Redis) : option entry :=
  match store r !! key with
  | Some e =>
      match expires_at e with
      | Some t => if now <? t then Some e else None
      | None => Some e
      end
  | None => None
  end.

(** Commands run against the server: they may raise, and they change it. *)
Definition M (A : Type) : Type := Redis -> result A * Redis.

#[global] Instance M_ret : MRet M := fun _ a r => (Ok a, r).
#[global] Instance M_bind : MBind M := fun _ _ f m r =>
  match m r with
  | (Ok a, r') => f a r'
  | (Raise e, r') => (Raise e, r')
  end.

Definition set_store (r : Redis) (s : gmap string entry) : Redis :=
  {| online := online r; store := s |}.

(** GET *)
Definition redis_get (now : Z) (key : string) : M (option string) := fun r =>
  if online r then
    (Ok (as_string ∘ value <$> lookup_live now key r), r)
  else (Raise ConnectionError, r).

(** Two's complement on 64 bits. *)
Definition wrap64 (z : Z) : Z := (z + 2 ^ 63) mod 2 ^ 64 - 2 ^ 63.

(** The time in milliseconds at which a key written at [now] with a ttl in
    seconds expires, as the server computes it in a signed 64-bit integer;
    [None] when the server refuses the ttl: one that is not positive, one
    too large to be turned into milliseconds, or one with which the time
    overflows. *)
Definition expire_ms (now ttl : Z) : option Z :=
  if (ttl <=? 0) || (INT64_MAX / 1000 <? ttl) then None
  else
    let ms := wrap64 (ttl * 1000 + now * 1000) in
    if ms <=? 0 then None else Some ms.

(** SETEX key ttl value *)
Definition redis_setex (now : Z) (key : string) (ttl : Z) (v : string) : M unit :=
  fun r =>
  if online r then
    match expire_ms now ttl with
    | None => (Raise ResponseError, r)
    | Some _ =>
        (Ok tt, set_store r (<[key := {| value := RStr v;
                                         expires_at := Some (now + ttl) |}]> (store r)))
    end
  else (Raise ConnectionError, r).

(** INCR: a missing key counts from 0; the key keeps its expiry. *)
Definition redis_incr (now : Z) (key : string) : M Z := fun r =>
  if online r then
    match lookup_live now key r with
    | None =>
        (Ok 1, set_store r (<[key := {| value := RInt 1; expires_at := None |}]> (store r)))
    | Some e =>
        match as_int (value e) with
        | Some n =>
            if n <? INT64_MAX then
              (Ok (n + 1),
               set_store r (<[key := {| value := RInt (n + 1);
                                        expires_at := expires_at e |}]> (store r)))
            else (Raise ResponseError, r)
        | None => (Raise ResponseError, r)
        end
    end
  else (Raise ConnectionError, r).

(** EXPIRE key seconds *)
Definition redis_expire (now : Z) (key : string) (seconds : Z) : M bool := fun r =>
  if online r then
    match lookup_live now key r with
    | None => (Ok false, r)
    | Some e =>
        if seconds <=? 0 then (Ok true, set_store r (delete key (store r)))
        else (Ok true,
              set_store r (<[key := {| value := value e;
                                       expires_at := Some (now + seconds) |}]> (store r)))
    end
  else (Raise ConnectionError, r).

(** ** [api/intelligence.py]: cache and rate limit helpers *)

(** [RATE_LIMITS], in the order of the dict literal. *)
Definition RATE_LIMITS : list (string * (Z * Z)) :=
  [ ("/api/floors/*/pulse", (180, 60));
    ("/api/analytics/live", (240, 60));
    ("/api/bot/query", (15, 60)) ].

(** [cache_get] *)
Definition cache_get (now : Z) (key : string) : M (option string) :=
  redis_get now key.

(** [cache_set] *)
Definition cache_set (now : Z) (key v : string) (ttl : Z) : M unit :=
  redis_setex now key ttl v.

(** [f"rate:{path}:{identifier}"] *)
Definition rate_key (path identifier : string) : string :=
  "rate:" +:+ path +:+ ":" +:+ identifier.

(** [pattern.replace(star, empty) in path]: the pattern without its star
    occurs in the path. *)
Definition pattern_matches (pattern path : string) : bool :=
  str_in (replace_char "*" EmptyString pattern) path.

(** The [for] loop of [check_rate_limit] over the items of a limits table. *)
Fixpoint check_limits (now : Z) (limits : list (string * (Z * Z)))
    (path key : string) : M bool :=
  match limits with
  | [] => mret true
  | (pattern, (limit, window)) :: rest =>
      if pattern_matches pattern path then
        count ← redis_incr now key;
        _ ← (if count =? 1 then redis_expire now key window else mret true);
        mret (count <=? limit)
      else check_limits now rest path key
  end.

(** [check_rate_limit] *)
Definition check_rate_limit (now : Z) (path identifier : string) : M bool :=
  check_limits now RATE_LIMITS path (rate_key path identifier).

(** The path [get_floor_pulse] hands to the limiter:
    [f"/api/floors/{floor_id}/pulse"]. *)
Definition floor_pulse_path (floor_id : Z) : string :=
  "/api/floors/" +:+ pretty floor_id +:+ "/pulse".

(** The head of [get_floor_pulse], up to the cache lookup: [Ok false]
    stands for the [HTTPException(status_code=429)] raised when the limiter
    refuses, [Ok true] for going on to the cache. *)
Definition get_floor_pulse_check (now : Z) (floor_id : Z) (sub : string) : M bool :=
  check_rate_limit now (floor_pulse_path floor_id) sub.

(** A run of calls of one caller on one path, at the given times. *)
Fixpoint calls (times : list Z) (path identifier : string) (r : Redis)
    : list (result bool) * Redis :=
  match times with
  | [] => ([], r)
  | now :: rest =>
      let '(answer, r') := check_rate_limit now path identifier r in
      let '(answers, r'') := calls rest path identifier r' in
      (answer :: answers, r'')
  end.

(** ** Vocabulary of the statements *)

(** What a broadcast logs for one member. *)
Definition sent (tr : transport) (message : payload) (connection : WebSocket)
    : send_event :=
  {| ev_target := connection; ev_message := message;
     ev_delivered := match send_text tr connection message with
                     | Ok _ => true
                     | Raise _ => false
                     end |}.

Definition fails (tr : transport) (message : payload) (connection : WebSocket)
    : Prop :=
  exists e, send_text tr connection message = Raise e.

(** An operation that does not take [C] out of its channels: it is not
    [disconnect(C)], and if it is a broadcast, the send to [C] returns. *)
Definition keeps (C : WebSocket) (o : op) : Prop :=
  match o with
  | OpConnect _ _ _ => True
  | OpDisconnect c => c <> C
  | OpBroadcast tr _ m => send_text tr C m = Ok tt
  end.

(** An operation other than [connect(C, _)]. *)
Definition no_connect (C : WebSocket) (o : op) : Prop :=
  match o with
  | OpConnect _ c _ => c <> C
  | _ => True
  end.

(** A transport on which every call returns. *)
Definition tr_ok : transport :=
  {| accept := fun _ => Ok tt; send_text := fun _ _ => Ok tt |}.

(** A transport on which the sends to [dead] raise. *)
Definition tr_broken (dead : WebSocket) : transport :=
  {| accept := fun _ => Ok tt;
     send_text := fun c _ => if decide (c = dead) then Raise RuntimeError else Ok tt |}.

(** The control message [{"type": "subscribe", "channel": channel}]. *)
Definition subscribe_message (channel : json) : gmap string json :=
  {[ "type" := JStr "subscribe"; "channel" := channel ]}.

(** [json.dumps({"type": "subscribed", "channel": name})] *)
Definition subscribed_reply (name : string) : payload :=
  Dumps [("type", JStr "subscribed"); ("channel", JStr name)].

(** The first error the listener meets on a bus, the messages it has been
    given before, and the number of items of [pubsub.listen()] it has taken
    by then. *)
Inductive bus_error (b : bus) (e : exn) : list bus_message -> nat -> Prop :=
  | subscribe_fails :
      bus_subscribe b 0%nat = Raise e ->
      bus_error b e [] 0%nat
  | listen_fails (before : list bus_message) (after : list (result bus_message)) :
      bus_subscribe b 0%nat = Ok tt ->
      bus_listen b = ((Ok <$> before) ++ Raise e :: after)%list ->
      bus_error b e before (S (length before)).

(** A bus whose first subscribe fails and on which any retry would work. *)
Definition flaky_bus : bus :=
  {| bus_subscribe := fun n => match n with O => Raise ConnectionError | S _ => Ok tt end;
     bus_listen := [Ok {| msg_type := "message"; msg_channel := "tower-ai-feed";
                          msg_data := "tick" |}] |}.

(** A bus that delivers one message and then loses the connection. *)
Definition dropping_bus : bus :=
  {| bus_subscribe := fun _ => Ok tt;
     bus_listen := [Ok {| msg_type := "message"; msg_channel := "tower-ai-feed";
                          msg_data := "tick" |};
                    Raise ConnectionError;
                    Ok {| msg_type := "message"; msg_channel := "tower-ai-feed";
                          msg_data := "tock" |}] |}.

(** Every character of [s] passes [P]. *)
Fixpoint all_chars (P : ascii -> bool) (s : string) : bool :=
  match s with
  | EmptyString => true
  | String c s' => P c && all_chars P s'
  end.

(** The characters [str] prints an integer with. *)
Definition decimal_char (c : ascii) : bool :=
  match digit_of c with
  | Some _ => true
  | None => Ascii.eqb c "-"
  end.

(** Limit and window of the first pattern of a table that matches a path. *)
Fixpoint first_match (limits : list (string * (Z * Z))) (path : string)
    : option (Z * Z) :=
  match limits with
  | [] => None
  | (pattern, lw) :: rest =>
      if pattern_matches pattern path then Some lw else first_match rest path
  end.

(** The count a key stands at, at time [now]. *)
Definition counter (now : Z) (key : string) (r : Redis) : Z :=
  match lookup_live now key r with
  | Some e => default 0 (as_int (value e))
  | None => 0
  end.

(** A server that cannot be reached. *)
Definition offline : Redis := {| online := false; store := ∅ |}.

(** The answers to calls number [from], [from + 1], ... of a window with
    the given limit. *)
Definition answers (limit : Z) (from count : nat) : list (result bool) :=
  (fun k => Ok (Z.of_nat k <=? limit)) <$> seq from count.

(** ** [api/websocket.py]: the two endpoint handlers, whole *)

(** What a handler does to the transport of its peer, in order. *)
Inductive ws_event : Type :=
  | Sent (ev : send_event)
  | Closed (websocket : WebSocket) (code : Z) (reason : string).

(** How far a handler got on the frames it was given. *)
Inductive handler_end : Type :=
  | Returned            (* the coroutine returned *)
  | Waiting             (* it awaits [receive_text], no frame is left *)
  | Escaped (e : exn).  (* an exception left the coroutine *)

Record handler_run : Type := {
  hr_manager : ConnectionManager;
  hr_events : list ws_event;
  hr_end : handler_end
}.

(** [verify_ws_token]; [decode token] is what
    [decode(token, JWT_SECRET, algorithms=["HS256"])] returns, [None] when
    it raises. The result is [None] when [verify_ws_token] raises. *)
Definition verify_ws_token (decode : string -> option (gmap string json))
    (token : string) : option (gmap string json) :=
  match decode token with
  | Some payload =>
      if decide (dict_get payload "aud" = JStr "frontier-dashboard")
      then Some payload
      else None
  | None => None
  end.

(** [jwt_payload.get("sub", "anonymous")] *)
Definition user_of (jwt_payload : gmap string json) : json :=
  default (JStr "anonymous") (jwt_payload !! "sub").

(** The [while True] loop of a handler over the frames it is given, each
    with the behaviour of the transport at that time; [turn] is the body of
    the loop inside its [try]. Here the handler is the only coroutine that
    touches the manager, which is enough to tell what the handler itself
    does; the loop on the manager that the other coroutines change between
    two frames is [receive_loop_among] below, and the two agree when the
    others do nothing (lemma [receive_loop_among_alone]). *)
Fixpoint receive_loop
    (turn : transport -> ConnectionManager -> result (gmap string json) ->
            ConnectionManager * list send_event * bool)
    (self : ConnectionManager)
    (turns : list (transport * result (gmap string json)))
    : ConnectionManager * list send_event * handler_end :=
  match turns with
  | [] => (self, [], Waiting)
  | (tr, frame) :: rest =>
      let '(self', log, continue) := turn tr self frame in
      if continue then
        let '(self'', log', ended) := receive_loop turn self' rest in
        (self'', (log ++ log')%list, ended)
      else (self', log, Returned)
  end.

(** The part of a handler after the checks: connect, welcome, loop. *)
Definition serve
    (turn : transport -> ConnectionManager -> result (gmap string json) ->
            ConnectionManager * list send_event * bool)
    (tr : transport) (self : ConnectionManager) (websocket : WebSocket)
    (channel : string) (welcome : payload)
    (turns : list (transport * result (gmap string json))) : handler_run :=
  match connect tr self websocket channel with
  | Raise e => {| hr_manager := self; hr_events := []; hr_end := Escaped e |}
  | Ok self1 =>
      match send_personal_message tr welcome websocket with
      | Raise e => {| hr_manager := self1; hr_events := []; hr_end := Escaped e |}
      | Ok ev =>
          let '(self2, log, ended) := receive_loop turn self1 turns in
          {| hr_manager := self2; hr_events := Sent <$> (ev :: log);
             hr_end := ended |}
      end
  end.

(** [if not token] on the query parameter [token: str = None]. *)
Definition token_missing (token : option string) : bool :=
  match token with
  | Some s => String.eqb s EmptyString
  | None => true
  end.

(** [websocket_tower_feed] *)
Definition websocket_tower_feed (decode : string -> option (gmap string json))
    (tr : transport) (self : ConnectionManager) (websocket : WebSocket)
    (token : option string)
    (turns : list (transport * result (gmap string json))) : handler_run :=
  if token_missing token then
    {| hr_manager := self; hr_events := [Closed websocket 1008 "Missing token"];
       hr_end := Returned |}
  else
    match verify_ws_token decode (default EmptyString token) with
    | None =>
        {| hr_manager := self;
           hr_events := [Closed websocket 1008 "Invalid token"];
           hr_end := Returned |}
    | Some jwt_payload =>
        serve (fun tr' self' => tower_feed_turn tr' self' websocket)
          tr self websocket "tower-ai-feed"
          (Dumps [("type", JStr "connected"); ("channel", JStr "tower-ai-feed");
                  ("user", user_of jwt_payload);
                  ("message", JStr "Connected to Frontier Tower AI Feed")])
          turns
    end.

(** One turn of the loop of [websocket_floor_pulse] inside its [try]. *)
Definition floor_pulse_turn (tr : transport) (self : ConnectionManager)
    (websocket : WebSocket) (frame : result (gmap string json))
    : ConnectionManager * list send_event * bool :=
  match
    message ← frame;
    if decide (dict_get message "type" = JStr "ping") then
      ev ← send_personal_message tr (Dumps [("type", JStr "pong")]) websocket;
      Ok (self, [ev])
    else Ok (self, [])
  with
  | Ok (self', log) => (self', log, true)
  | Raise _ => (disconnect self websocket, [], false)
  end.

(** The floors [websocket_floor_pulse] lets in. *)
Definition FLOORS : list Z := [2; 4; 9; 15; 16].

(** [f"floor-pulse-{floor_id}"] *)
Definition floor_channel (floor_id : Z) : string :=
  "floor-pulse-" +:+ pretty floor_id.

(** [websocket_floor_pulse] *)
Definition websocket_floor_pulse (decode : string -> option (gmap string json))
    (tr : transport) (self : ConnectionManager) (websocket : WebSocket)
    (floor_id : Z) (token : option string)
    (turns : list (transport * result (gmap string json))) : handler_run :=
  if token_missing token then
    {| hr_manager := self; hr_events := [Closed websocket 1008 "Missing token"];
       hr_end := Returned |}
  else
    match verify_ws_token decode (default EmptyString token) with
    | None =>
        {| hr_manager := self;
           hr_events := [Closed websocket 1008 "Invalid token"];
           hr_end := Returned |}
    | Some jwt_payload =>
        if bool_decide (floor_id ∈ FLOORS) then
          serve (fun tr' self' => floor_pulse_turn tr' self' websocket)
            tr self websocket (floor_channel floor_id)
            (Dumps [("type", JStr "connected");
                    ("channel", JStr (floor_channel floor_id));
                    ("floor", JNum floor_id);
                    ("user", user_of jwt_payload);
                    ("message", JStr ("Connected to Floor " +:+ pretty floor_id
                                      +:+ " Pulse Feed"))])
            turns
        else
          {| hr_manager := self;
             hr_events := [Closed websocket 1003 "Invalid floor"];
             hr_end := Returned |}
    end.

(** The messages a log shows as delivered to [C], in order. *)
Definition delivered_to (C : WebSocket) (log : list send_event) : list payload :=
  ev_message <$> filter (fun ev => ev_target ev = C /\ ev_delivered ev = true) log.

(** [C] is in the set of channel [X] (as a boolean). *)
Definition member (self : ConnectionManager) (X : string) (C : WebSocket) : bool :=
  bool_decide (C ∈ default ∅ (active_connections self !! X)).

(** What a turn of either loop may do to the manager: nothing, a
    [connect] of its connection, or the [disconnect] that ends the loop. *)
Definition turn_shape
    (turn : transport -> ConnectionManager -> result (gmap string json) ->
            ConnectionManager * list send_event * bool)
    (websocket : WebSocket) : Prop :=
  forall tr self frame,
    (exists log, turn tr self frame = (self, log, true)) \/
    (exists channel self' log,
        connect tr self websocket channel = Ok self' /\
        turn tr self frame = (self', log, true)) \/
    turn tr self frame = (disconnect self websocket, [], false).

(** ** [api/websocket.py]: [broadcast] among the other coroutines *)

(** The set [self.active_connections[channel]], empty for a name that is no
    key. *)
Definition channel_set (self : ConnectionManager) (channel : string) : gset nat :=
  default ∅ (active_connections self !! channel).

(** What the other coroutines do to the shared manager while one coroutine
    is suspended at an [await]: their steps on the manager, in the order
    the event loop runs them (the registration of a [connect] whose
    [accept] has returned, a [disconnect], the cleanup at the end of a
    broadcast). The flag tells whether one of them changed the set of
    [channel] on the way. *)
Fixpoint interfere (channel : string) (self : ConnectionManager) (ops : list op)
    : ConnectionManager * bool :=
  match ops with
  | [] => (self, false)
  | o :: rest =>
      let self' := step self o in
      let '(self'', touched) := interfere channel self' rest in
      (self'',
       negb (bool_decide (channel_set self' channel = channel_set self channel))
       || touched)
  end.

(** How the loop of [broadcast] ends. *)
Inductive loop_end : Type :=
  | Finished              (* the iterator is exhausted *)
  | Raised (e : exn)      (* an exception leaves the loop, and [broadcast] *)
  | Undetermined.         (* the set was changed and has its old size again:
                             what its iterator yields next depends on the
                             layout of the hash table; the run is not
                             followed further *)

#[global] Instance loop_end_eq_dec : EqDecision loop_end.
Proof. solve_decision. Defined.

Record broadcast_run : Type := {
  br_end : loop_end;
  br_manager : ConnectionManager;   (* the manager when [broadcast] is left *)
  br_log : list send_event          (* the sends that were awaited, in order *)
}.

(** [for connection in self.active_connections[channel]: ...] over the live
    set. [used] is the size of the set when the iterator was made and
    [pending] the members it has not yet yielded, in its order;
    [hd [] awaits] is what the other coroutines do during the next awaited
    [send_text]. Every [next()] of the iterator first compares the size of
    the set with [used] and raises [RuntimeError] ("Set changed size during
    iteration") when they differ, the [next()] that would end the loop
    included. *)
Fixpoint iterate_among (tr : transport) (message : payload) (channel : string)
    (used : nat) (pending : list nat) (awaits : list (list op))
    (self : ConnectionManager) (touched : bool) (disconnected : gset nat)
    : loop_end * ConnectionManager * list send_event * gset nat :=
  if negb (bool_decide (size (channel_set self channel) = used)) then
    (Raised RuntimeError, self, [], disconnected)
  else if touched then (Undetermined, self, [], disconnected)
  else
    match pending with
    | [] => (Finished, self, [], disconnected)
    | connection :: rest =>
        let '(self', touched') := interfere channel self (hd [] awaits) in
        let '(ev, disconnected') :=
          match send_text tr connection message with
          | Ok _ =>
              ({| ev_target := connection; ev_message := message;
                  ev_delivered := true |}, disconnected)
          | Raise _ =>
              ({| ev_target := connection; ev_message := message;
                  ev_delivered := false |}, disconnected ∪ {[connection]})
          end in
        let '(ended, self'', log, disconnected'') :=
          iterate_among tr message channel used rest (tl awaits)
            self' touched' disconnected' in
        (ended, self'', ev :: log, disconnected'')
    end.

(** [ConnectionManager.broadcast] with the other coroutines running during
    its awaits: [awaits] holds, for the first, second, ... awaited
    [send_text], what they do to the manager meanwhile. The cleanup loop is
    reached only when the first loop ends without an exception. *)
Definition broadcast_among (tr : transport) (self : ConnectionManager)
    (channel : string) (message : payload) (awaits : list (list op))
    : broadcast_run :=
  match active_connections self !! channel with
  | Some members =>
      let '(ended, self', log, disconnected) :=
        iterate_among tr message channel (size members) (elements members)
          awaits self false ∅ in
      {| br_end := ended;
         br_manager :=
           match ended with
           | Finished => foldl disconnect self' (elements disconnected)
           | _ => self'
           end;
         br_log := log |}
  | None => {| br_end := Finished; br_manager := self; br_log := [] |}
  end.

(** No other coroutine changes the set of [channel] during the first [n]
    awaits of a broadcast that starts on [self]. *)
Fixpoint quiet (channel : string) (self : ConnectionManager) (n : nat)
    (awaits : list (list op)) : bool :=
  match n with
  | O => true
  | S n' =>
      let '(self', touched) := interfere channel self (hd [] awaits) in
      negb touched && quiet channel self' n' (tl awaits)
  end.

(** ** [api/websocket.py]: the handlers among the other coroutines *)

(** The [while True] loop of a handler on the shared [manager]. A turn comes
    with what the other coroutines (the other handlers, and the listener
    with the cleanup of its broadcasts) did to the manager since this
    handler last touched it, up to the point where the turn touches it: a
    turn touches the manager at most once, by the registration in [connect]
    or by [disconnect], so what is done during its several awaits adds up.
    [last] is what they do while the handler awaits a frame that has not
    come. *)
Fixpoint receive_loop_among
    (turn : transport -> ConnectionManager -> result (gmap string json) ->
            ConnectionManager * list send_event * bool)
    (self : ConnectionManager)
    (turns : list (list op * transport * result (gmap string json)))
    (last : list op)
    : ConnectionManager * list send_event * handler_end :=
  match turns with
  | [] => (run self last, [], Waiting)
  | (others, tr, frame) :: rest =>
      let '(self', log, continue) := turn tr (run self others) frame in
      if continue then
        let '(self'', log', ended) := receive_loop_among turn self' rest last in
        (self'', (log ++ log')%list, ended)
      else (self', log, Returned)
  end.

(** The part of a handler after the checks; [before] is what the other
    coroutines do while [connect] awaits [accept]. *)
Definition serve_among
    (turn : transport -> ConnectionManager -> result (gmap string json) ->
            ConnectionManager * list send_event * bool)
    (before : list op)
    (tr : transport) (self : ConnectionManager) (websocket : WebSocket)
    (channel : string) (welcome : payload)
    (turns : list (list op * transport * result (gmap string json)))
    (last : list op) : handler_run :=
  match connect tr (run self before) websocket channel with
  | Raise e =>
      {| hr_manager := run self before; hr_events := []; hr_end := Escaped e |}
  | Ok self1 =>
      match send_personal_message tr welcome websocket with
      | Raise e => {| hr_manager := self1; hr_events := []; hr_end := Escaped e |}
      | Ok ev =>
          let '(self2, log, ended) := receive_loop_among turn self1 turns last in
          {| hr_manager := self2; hr_events := Sent <$> (ev :: log);
             hr_end := ended |}
      end
  end.

(** [websocket_tower_feed] among the other coroutines. *)
Definition websocket_tower_feed_among
    (decode : string -> option (gmap string json)) (before : list op)
    (tr : transport) (self : ConnectionManager) (websocket : WebSocket)
    (token : option string)
    (turns : list (list op * transport * result (gmap string json)))
    (last : list op) : handler_run :=
  if token_missing token then
    {| hr_manager := self; hr_events := [Closed websocket 1008 "Missing token"];
       hr_end := Returned |}
  else
    match verify_ws_token decode (default EmptyString token) with
    | None =>
        {| hr_manager := self;
           hr_events := [Closed websocket 1008 "Invalid token"];
           hr_end := Returned |}
    | Some jwt_payload =>
        serve_among (fun tr' self' => tower_feed_turn tr' self' websocket)
          before tr self websocket "tower-ai-feed"
          (Dumps [("type", JStr "connected"); ("channel", JStr "tower-ai-feed");
                  ("user", user_of jwt_payload);
                  ("message", JStr "Connected to Frontier Tower AI Feed")])
          turns last
    end.

(** [websocket_floor_pulse] among the other coroutines. *)
Definition websocket_floor_pulse_among
    (decode : string -> option (gmap string json)) (before : list op)
    (tr : transport) (self : ConnectionManager) (websocket : WebSocket)
    (floor_id : Z) (token : option string)
    (turns : list (list op * transport * result (gmap string json)))
    (last : list op) : handler_run :=
  if token_missing token then
    {| hr_manager := self; hr_events := [Closed websocket 1008 "Missing token"];
       hr_end := Returned |}
  else
    match verify_ws_token decode (default EmptyString token) with
    | None =>
        {| hr_manager := self;
           hr_events := [Closed websocket 1008 "Invalid token"];
           hr_end := Returned |}
    | Some jwt_payload =>
        if bool_decide (floor_id ∈ FLOORS) then
          serve_among (fun tr' self' => floor_pulse_turn tr' self' websocket)
            before tr self websocket (floor_channel floor_id)
            (Dumps [("type", JStr "connected");
                    ("channel", JStr (floor_channel floor_id));
                    ("floor", JNum floor_id);
                    ("user", user_of jwt_payload);
                    ("message", JStr ("Connected to Floor " +:+ pretty floor_id
                                      +:+ " Pulse Feed"))])
            turns last
        else
          {| hr_manager := self;
             hr_events := [Closed websocket 1003 "Invalid floor"];
             hr_end := Returned |}
    end.

(** All that the other coroutines do after the registration of a handler's
    connection, in order. *)
Definition others_of
    (turns : list (list op * transport * result (gmap string json)))
    (last : list op) : list op :=
  (concat ((fun t => t.1.1) <$> turns) ++ last)%list.

(** ** [api/websocket.py]: the Redis listener among the other coroutines *)

Record listener_run_among : Type := {
  la_end : loop_end;              (* how the coroutine ended *)
  la_manager : ConnectionManager;
  la_log : list send_event
}.

(** [async for message in pubsub.listen(): ...] on the shared [manager]. An
    item of the stream comes with what the other coroutines do while the
    listener awaits it and, for a broadcast, with what they do during its
    awaited sends. *)
Fixpoint listen_loop_among (tr : transport) (self : ConnectionManager)
    (stream : list (list op * result bus_message * list (list op)))
    : listener_run_among :=
  match stream with
  | [] => {| la_end := Finished; la_manager := self; la_log := [] |}
  | (others, item, awaits) :: rest =>
      let self0 := run self others in
      match item with
      | Raise e => {| la_end := Raised e; la_manager := self0; la_log := [] |}
      | Ok message =>
          if String.eqb (msg_type message) "message" then
            let b := broadcast_among tr self0 (msg_channel message)
                       (Raw (msg_data message)) awaits in
            match br_end b with
            | Finished =>
                let r := listen_loop_among tr (br_manager b) rest in
                {| la_end := la_end r; la_manager := la_manager r;
                   la_log := br_log b ++ la_log r |}
            | ended =>
                {| la_end := ended; la_manager := br_manager b;
                   la_log := br_log b |}
            end
          else listen_loop_among tr self0 rest
      end
  end.

(** [redis_listener] among the other coroutines; [subscribed] is the
    outcome of its [pubsub.subscribe]. *)
Definition redis_listener_among (tr : transport) (self : ConnectionManager)
    (subscribed : result unit)
    (stream : list (list op * result bus_message * list (list op)))
    : listener_run_among :=
  match subscribed with
  | Raise e => {| la_end := Raised e; la_manager := self; la_log := [] |}
  | Ok _ => listen_loop_among tr self stream
  end.

(** A stream of messages, none of which is an error of the bus. *)
Definition messages (items : list (list op * bus_message * list (list op)))
    : list (list op * result bus_message * list (list op)) :=
  (fun t => (t.1.1, Ok t.1.2, t.2)) <$> items.

(** During none of the broadcasts of the listener does another coroutine
    change the set of the channel that is being broadcast on. *)
Fixpoint listener_quiet (tr : transport) (self : ConnectionManager)
    (items : list (list op * bus_message * list (list op))) : bool :=
  match items with
  | [] => true
  | (others, message, awaits) :: rest =>
      let self0 := run self others in
      if String.eqb (msg_type message) "message" then
        quiet (msg_channel message) self0
              (size (channel_set self0 (msg_channel message))) awaits
        && listener_quiet tr
             (br_manager (broadcast_among tr self0 (msg_channel message)
                            (Raw (msg_data message)) awaits)) rest
      else listener_quiet tr self0 rest
  end.

(** An operation that is neither [connect(C, _)] nor [disconnect(C)] nor a
    broadcast whose send to [C] raises. *)
Definition apart_from (C : WebSocket) (o : op) : Prop :=
  keeps C o /\ no_connect C o.

(** All that the other coroutines do during a run of the listener. *)
Definition around (items : list (list op * bus_message * list (list op)))
    : list op :=
  concat ((fun t => t.1.1 ++ concat t.2)%list <$> items).

(** Two managers that hold the same memberships for every connection but
    [C]. *)
Definition agree_but (C : WebSocket) (s s' : ConnectionManager) : Prop :=
  forall Y c, c <> C -> in_channel s Y c <-> in_channel s' Y c.


(** ** [api/intelligence.py]: an endpoint on top of the helpers *)

(** What an endpoint answers: a body, given by its JSON text, or an
    [HTTPException]. *)
Inductive response : Type :=
  | Body (text : string)
  | HTTPException (status_code : Z) (detail : string).

(** A call that raises. *)
Definition raise {A} (e : exn) : M A := fun r => (Raise e, r).

(** [get_live_analytics]. [sub] is [jwt_payload.get("sub", "anonymous")];
    [now] is the time of the limiter and cache lookups and [stored] the
    time of the cache write; [query] stands for the block under
    [async with get_db_connection()], by the [json.dumps] of the result it
    builds or by the exception it raises. On a hit the body is the cached
    text ([json.loads(cached)]). *)
Definition get_live_analytics (now stored : Z) (sub : string)
    (query : result string) : M response :=
  allowed ← check_rate_limit now "/api/analytics/live" sub;
  if negb allowed then mret (HTTPException 429 "Rate limit exceeded")
  else
    cached ← cache_get now "intel:live";
    match cached with
    | Some text =>
        if negb (String.eqb text EmptyString) then mret (Body text)
        else
          match query with
          | Raise e => raise e
          | Ok body => _ ← cache_set stored "intel:live" body 15; mret (Body body)
          end
    | None =>
        match query with
        | Raise e => raise e
        | Ok body => _ ← cache_set stored "intel:live" body 15; mret (Body body)
        end
    end.

(** ** [api/auth.py]: the dependencies of the endpoints *)

(** What a dependency ends with: its value, the [HTTPException] it raises,
    or an exception of another kind. *)
Inductive outcome (A : Type) : Type :=
  | Granted (a : A)
  | Refused (status_code : Z) (detail : string)
  | Crashed.
Arguments Granted {A} a.
Arguments Refused {A} status_code detail.
Arguments Crashed {A}.

#[global] Instance outcome_ret : MRet outcome := fun _ a => Granted a.
#[global] Instance outcome_bind : MBind outcome := fun _ _ f m =>
  match m with
  | Granted a => f a
  | Refused status_code detail => Refused status_code detail
  | Crashed => Crashed
  end.

(** [decode_token]; [jose_decode token] is what [jwt.decode(token,
    JWT_SECRET, algorithms=[JWT_ALGORITHM], audience="frontier-dashboard")]
    returns, [None] when it raises [JWTError]. *)
Definition decode_token (jose_decode : string -> option (gmap string json))
    (token : string) : outcome (gmap string json) :=
  match jose_decode token with
  | Some payload => Granted payload
  | None => Refused 401 "Could not validate credentials"
  end.

(** [datetime.fromtimestamp(exp, tz=timezone.utc)] as seconds since the
    epoch, [None] when it raises: on a value that is no number, or on a
    number outside the years 1 to 9999. *)
Definition fromtimestamp (exp : json) : option Z :=
  match exp with
  | JNum n =>
      if (-62135596800 <=? n) && (n <=? 253402300799) then Some n else None
  | JBool b => Some (if b then 1 else 0)
  | _ => None
  end.

(** [verify_jwt]; [now] is [datetime.now(timezone.utc)] in microseconds
    since the epoch. *)
Definition verify_jwt (jose_decode : string -> option (gmap string json))
    (now : Z) (token : string) : outcome (gmap string json) :=
  payload ← decode_token jose_decode token;
  let exp := dict_get payload "exp" in
  expired ←
    (if truthy exp then
       match fromtimestamp exp with
       | Some t => Granted (t * 1000000 <? now)
       | None => Crashed
       end
     else Granted false);
  if (expired : bool) then Refused 401 "Token has expired"
  else if decide (dict_get payload "aud" = JStr "frontier-dashboard")
  then Granted payload
  else Refused 401 "Invalid token audience".

(** [get_current_user], on the payload [verify_jwt] hands it. *)
Definition get_current_user (jwt_payload : gmap string json) : outcome json :=
  let user_id := dict_get jwt_payload "sub" in
  if truthy user_id then Granted user_id
  else Refused 401 "Invalid token payload".

(** [verify_admin], on the payload [verify_jwt] hands it. *)
Definition verify_admin (jwt_payload : gmap string json)
    : outcome (gmap string json) :=
  let role := default (JStr "user") (jwt_payload !! "role") in
  if decide (role = JStr "admin") then Granted jwt_payload
  else Refused 403 "Admin access required".

(** * Properties *)

Local Close Scope Z_scope.

(** ** The connection manager *)

Section manager_facts.
Implicit Types (self : ConnectionManager) (tr : transport).
Implicit Types (X channel : string) (C websocket : nat).

Lemma connect_known tr self websocket channel members :
  accept tr websocket = Ok tt ->
  active_connections self !! channel = Some members ->
  connect tr self websocket channel =
    Ok {| active_connections :=
            <[channel := members ∪ {[websocket]}]> (active_connections self);
          user_channels :=
            <[websocket := default ∅ (user_channels self !! websocket) ∪ {[channel]}]>
              (user_channels self) |}.
Proof.
  intros Hacc Hch. unfold connect. rewrite Hacc. simpl. rewrite Hch.
  destruct (user_channels self !! websocket) as [chs|] eqn:Huc; simpl.
  - by rewrite Huc.
  - by rewrite lookup_insert_eq, insert_insert_eq.
Qed.

Lemma connect_unknown tr self websocket channel :
  accept tr websocket = Ok tt ->
  active_connections self !! channel = None ->
  connect tr self websocket channel = Ok self.
Proof. intros Hacc Hch. unfold connect. by rewrite Hacc; simpl; rewrite Hch. Qed.

Lemma connect_raises tr self websocket channel e :
  accept tr websocket = Raise e ->
  connect tr self websocket channel = Raise e.
Proof. intros Hacc. unfold connect. by rewrite Hacc. Qed.

Lemma discard_fold_lookup websocket (chans : list string) ac X :
  foldl (discard_from websocket) ac chans !! X =
    if decide (X ∈ chans) then (fun s => s ∖ {[websocket]}) <$> ac !! X
    else ac !! X.
Proof.
  revert ac. induction chans as [|ch chans IH]; intros ac; cbn [foldl].
  - rewrite decide_False; [done | set_solver].
  - rewrite IH. unfold discard_from.
    destruct (decide (X = ch)) as [->|Hne].
    + rewrite (decide_True (P := ch ∈ ch :: chans)) by set_solver.
      destruct (ac !! ch) as [s|] eqn:Hs.
      * rewrite lookup_insert_eq. cbn.
        case_decide; cbn; f_equal; set_solver.
      * rewrite Hs. by case_decide.
    + assert (ac' : (match ac !! ch with
                     | Some members => <[ch:=members ∖ {[websocket]}]> ac
                     | None => ac end) !! X = ac !! X).
      { destruct (ac !! ch); [by rewrite lookup_insert_ne | done]. }
      rewrite ac'.
      destruct (decide (X ∈ chans)).
      * rewrite decide_True by set_solver. done.
      * rewrite decide_False by set_solver. done.
Qed.

Lemma disconnect_active_lookup self websocket channels X :
  user_channels self !! websocket = Some channels ->
  active_connections (disconnect self websocket) !! X =
    if decide (X ∈ channels)
    then (fun s => s ∖ {[websocket]}) <$> active_connections self !! X
    else active_connections self !! X.
Proof.
  intros Huc. unfold disconnect. rewrite Huc. cbn.
  rewrite discard_fold_lookup.
  destruct (decide (X ∈ channels)).
  - rewrite decide_True by set_solver. done.
  - rewrite decide_False by set_solver. done.
Qed.

Lemma disconnect_unregistered self websocket :
  user_channels self !! websocket = None -> disconnect self websocket = self.
Proof. intros Huc. unfold disconnect. by rewrite Huc. Qed.

Lemma disconnect_user_channels self websocket :
  user_channels (disconnect self websocket) = delete websocket (user_channels self).
Proof.
  unfold disconnect. destruct (user_channels self !! websocket) eqn:Huc; cbn.
  - done.
  - by rewrite delete_id.
Qed.

Lemma has_channel_disconnect self websocket C X :
  has_channel (disconnect self websocket) C X <->
  has_channel self C X /\ C ≠ websocket.
Proof.
  unfold has_channel. rewrite disconnect_user_channels. split.
  - intros (chs & Hl & Hin). apply lookup_delete_Some in Hl as [Hne Hl]. eauto.
  - intros [(chs & Hl & Hin) Hne]. exists chs. split; [|done].
    apply lookup_delete_Some. eauto.
Qed.

Lemma in_channel_disconnect self websocket C X :
  consistent self ->
  in_channel (disconnect self websocket) X C <->
  in_channel self X C /\ C ≠ websocket.
Proof.
  intros Hcons. unfold in_channel.
  destruct (user_channels self !! websocket) as [channels|] eqn:Huc.
  - setoid_rewrite (disconnect_active_lookup _ _ _ _ Huc).
    destruct (decide (X ∈ channels)) as [Hin|Hnin].
    + split.
      * intros (s & Hs & HC).
        destruct (active_connections self !! X) as [s0|]; [|done].
        injection Hs as <-. split; [exists s0|]; set_solver.
      * intros [(s & Hs & HC) Hne]. rewrite Hs. cbn.
        eexists; split; [done | set_solver].
    + split; [|tauto].
      intros (s & Hs & HC). split; [eauto|].
      intros ->. apply Hnin.
      destruct (proj1 (Hcons X websocket)) as (chs & Hl & HX); [by exists s|].
      congruence.
  - rewrite disconnect_unregistered by done.
    split; [|tauto].
    intros (s & Hs & HC). split; [eauto|]. intros ->.
    destruct (proj1 (Hcons X websocket)) as (chs & Hl & HX); [by exists s|].
    congruence.
Qed.

Lemma consistent_init : consistent init.
Proof.
  intros X C. unfold in_channel, has_channel. split.
  - intros (s & Hs & HC). exfalso. unfold init in Hs. cbn in Hs.
    repeat (rewrite lookup_insert in Hs; case_decide;
            [injection Hs as <-; set_solver|]).
    by rewrite lookup_empty in Hs.
  - intros (s & Hs & _). cbn in Hs. by rewrite lookup_empty in Hs.
Qed.

Lemma consistent_disconnect self websocket :
  consistent self -> consistent (disconnect self websocket).
Proof.
  intros Hcons X C.
  rewrite in_channel_disconnect, has_channel_disconnect by done.
  by rewrite (Hcons X C).
Qed.

Lemma consistent_disconnect_all self (l : list nat) :
  consistent self -> consistent (foldl disconnect self l).
Proof.
  revert self. induction l as [|c l IH]; intros self Hcons; cbn [foldl].
  - done.
  - by apply IH, consistent_disconnect.
Qed.

Lemma consistent_connect tr self websocket channel self' :
  consistent self ->
  connect tr self websocket channel = Ok self' ->
  consistent self'.
Proof.
  intros Hcons Hconn.
  destruct (accept tr websocket) as [[]|e] eqn:Hacc;
    [|by rewrite (connect_raises _ _ _ _ _ Hacc) in Hconn].
  destruct (active_connections self !! channel) as [members|] eqn:Hch.
  - rewrite (connect_known _ _ _ _ _ Hacc Hch) in Hconn. injection Hconn as <-.
    intros X C. unfold in_channel, has_channel. cbn.
    destruct (decide (X = channel)) as [->|HX];
      destruct (decide (C = websocket)) as [->|HC].
    + rewrite !lookup_insert_eq. split; intros _; eexists; split; set_solver.
    + rewrite lookup_insert_eq, lookup_insert_ne by done.
      rewrite <- (Hcons channel C). unfold in_channel. rewrite Hch.
      split; intros (s & Hs & Hin); injection Hs as <-;
        eexists; split; try done; set_solver.
    + rewrite lookup_insert_eq, lookup_insert_ne by done.
      rewrite (Hcons X websocket). unfold has_channel.
      split.
      * intros (s & Hs & Hin). rewrite Hs. cbn. eexists; split; set_solver.
      * intros (s & Hs & Hin). injection Hs as <-.
        destruct (user_channels self !! websocket) as [chs|]; cbn in Hin.
        -- exists chs. split; set_solver.
        -- set_solver.
    + rewrite !lookup_insert_ne by done. apply Hcons.
  - rewrite (connect_unknown _ _ _ _ Hacc Hch) in Hconn. by injection Hconn as <-.
Qed.

Lemma broadcast_total tr self channel message :
  exists self' log, broadcast tr self channel message = Ok (self', log).
Proof.
  unfold broadcast. destruct (active_connections self !! channel) as [members|].
  - assert (Hall : forall l d, exists log d', send_all tr message l d = Ok (log, d')).
    { induction l as [|c l IH]; intros d; cbn; [eauto|].
      destruct (send_text tr c message) as [[]|e]; cbn.
      - destruct (IH d) as (log & d' & ->). cbn. eauto.
      - destruct (IH (d ∪ {[c]})) as (log & d' & ->). cbn. eauto. }
    destruct (Hall (elements members) ∅) as (log & d' & ->). cbn. eauto.
  - eauto.
Qed.

Lemma consistent_broadcast tr self channel message self' log :
  consistent self ->
  broadcast tr self channel message = Ok (self', log) ->
  consistent self'.
Proof.
  intros Hcons. unfold broadcast.
  destruct (active_connections self !! channel) as [members|].
  - destruct (send_all tr message (elements members) ∅) as [[log' d]|e]; cbn; [|done].
    intros [= <- <-]. by apply consistent_disconnect_all.
  - by intros [= <- <-].
Qed.

Lemma consistent_step self o : consistent self -> consistent (step self o).
Proof.
  intros Hcons. destruct o as [tr ws ch|ws|tr ch m]; cbn.
  - destruct (connect tr self ws ch) eqn:Hc; [|done].
    by eapply consistent_connect.
  - by apply consistent_disconnect.
  - destruct (broadcast tr self ch m) as [[self' log]|e] eqn:Hb; [|done].
    by eapply consistent_broadcast.
Qed.

Lemma consistent_run self ops : consistent self -> consistent (run self ops).
Proof.
  revert self. induction ops as [|o ops IH]; intros self Hcons; cbn; [done|].
  by apply IH, consistent_step.
Qed.

Lemma send_all_spec tr message (l : list nat) (d : gset nat) :
  exists d', send_all tr message l d = Ok (sent tr message <$> l, d') /\
    forall c, c ∈ d' <-> c ∈ d \/ (c ∈ l /\ fails tr message c).
Proof.
  revert d. induction l as [|c l IH]; intros d; cbn.
  - exists d. split; [done|]. intros c. set_solver.
  - unfold sent at 1, fails.
    destruct (send_text tr c message) as [[]|e] eqn:Hsend; cbn.
    + destruct (IH d) as (d' & -> & Hd'). cbn. exists d'. split; [done|].
      intros c'. rewrite Hd'. unfold fails. split.
      * intros [?|[? ?]]; [by left | right; set_solver].
      * intros [?|[Hc' [e He]]]; [by left|].
        apply elem_of_cons in Hc' as [->|?]; [congruence | right; eauto].
    + destruct (IH (d ∪ {[c]})) as (d' & -> & Hd'). cbn. exists d'. split; [done|].
      intros c'. rewrite Hd'. unfold fails. split.
      * intros [Hc'|[? ?]]; [|right; set_solver].
        apply elem_of_union in Hc' as [?|Hc']; [by left|].
        apply elem_of_singleton in Hc' as ->. right. split; [set_solver | eauto].
      * intros [?|[Hc' [e' He']]]; [left; set_solver|].
        apply elem_of_cons in Hc' as [->|?]; [left; set_solver | right; eauto].
Qed.

Lemma broadcast_known tr self channel message members :
  active_connections self !! channel = Some members ->
  exists failed : gset nat,
    broadcast tr self channel message =
      Ok (foldl disconnect self (elements failed),
          sent tr message <$> elements members) /\
    forall c, c ∈ failed <-> c ∈ members /\ fails tr message c.
Proof.
  intros Hch. unfold broadcast. rewrite Hch.
  destruct (send_all_spec tr message (elements members) ∅) as (d' & -> & Hd').
  cbn. exists d'. split; [done|].
  intros c. rewrite Hd'. rewrite elem_of_elements. set_solver.
Qed.

Lemma broadcast_unknown tr self channel message :
  active_connections self !! channel = None ->
  broadcast tr self channel message = Ok (self, []).
Proof. intros Hch. unfold broadcast. by rewrite Hch. Qed.

Lemma in_channel_disconnect_all self (l : list nat) X C :
  consistent self ->
  in_channel (foldl disconnect self l) X C <-> in_channel self X C /\ C ∉ l.
Proof.
  revert self. induction l as [|c l IH]; intros self Hcons; cbn [foldl].
  - set_solver.
  - rewrite IH by by apply consistent_disconnect.
    rewrite in_channel_disconnect by done. set_solver.
Qed.

Lemma user_channels_disconnect_all self (l : list nat) C :
  user_channels (foldl disconnect self l) !! C =
    if decide (C ∈ l) then None else user_channels self !! C.
Proof.
  revert self. induction l as [|c l IH]; intros self; cbn [foldl].
  - by rewrite decide_False by set_solver.
  - rewrite IH, disconnect_user_channels.
    destruct (decide (C ∈ l)).
    + by rewrite decide_True by set_solver.
    + destruct (decide (C = c)) as [->|].
      * rewrite decide_True by set_solver. apply lookup_delete_eq.
      * rewrite decide_False by set_solver. by apply lookup_delete_ne.
Qed.

Lemma dom_disconnect self websocket :
  dom (active_connections (disconnect self websocket)) =
  dom (active_connections self).
Proof.
  destruct (user_channels self !! websocket) as [channels|] eqn:Huc.
  - apply set_eq. intros X. rewrite !elem_of_dom.
    rewrite (disconnect_active_lookup _ _ _ _ Huc).
    case_decide; [|done]. by rewrite fmap_is_Some.
  - by rewrite disconnect_unregistered.
Qed.

Lemma dom_disconnect_all self (l : list nat) :
  dom (active_connections (foldl disconnect self l)) =
  dom (active_connections self).
Proof.
  revert self. induction l as [|c l IH]; intros self; cbn [foldl]; [done|].
  by rewrite IH, dom_disconnect.
Qed.

Lemma dom_step self o :
  dom (active_connections (step self o)) = dom (active_connections self).
Proof.
  destruct o as [tr ws ch|ws|tr ch m]; cbn.
  - destruct (accept tr ws) as [[]|e] eqn:Hacc;
      [|by rewrite (connect_raises _ _ _ _ _ Hacc)].
    destruct (active_connections self !! ch) as [members|] eqn:Hch.
    + rewrite (connect_known _ _ _ _ _ Hacc Hch). cbn.
      rewrite dom_insert_L. apply elem_of_dom_2 in Hch. set_solver.
    + by rewrite (connect_unknown _ _ _ _ Hacc Hch).
  - apply dom_disconnect.
  - destruct (active_connections self !! ch) as [members|] eqn:Hch.
    + destruct (broadcast_known tr self ch m members Hch) as (failed & -> & _).
      apply dom_disconnect_all.
    + by rewrite broadcast_unknown.
Qed.

Lemma reachable_consistent self : reachable self -> consistent self.
Proof. intros [ops ->]. apply consistent_run, consistent_init. Qed.

Lemma reachable_channels self X :
  reachable self -> is_Some (active_connections self !! X) <-> X ∈ CHANNELS.
Proof.
  intros [ops ->]. rewrite <- elem_of_dom.
  assert (Hdom : forall st, dom (active_connections (run st ops)) =
                            dom (active_connections st)).
  { induction ops as [|o ops IH]; intros st; cbn; [done|].
    unfold run in IH. by rewrite IH, dom_step. }
  rewrite Hdom. unfold init. cbn [active_connections].
  rewrite dom_list_to_map_L, <- list_fmap_compose, elem_of_list_to_set.
  by rewrite list_fmap_id.
Qed.

Lemma reachable_step self o : reachable self -> reachable (step self o).
Proof.
  intros [ops ->]. exists (ops ++ [o])%list. unfold run. by rewrite foldl_app.
Qed.

Lemma reachable_run self ops : reachable self -> reachable (run self ops).
Proof.
  intros [ops0 ->]. exists (ops0 ++ ops)%list. unfold run. by rewrite foldl_app.
Qed.

Lemma connect_Ok_accept tr self websocket channel self' :
  connect tr self websocket channel = Ok self' -> accept tr websocket = Ok tt.
Proof.
  unfold connect. destruct (accept tr websocket) as [[]|e]; [done|]. by cbn.
Qed.

Lemma in_channel_connect tr self websocket channel self' X C :
  connect tr self websocket channel = Ok self' ->
  in_channel self' X C <->
  in_channel self X C \/
  (X = channel /\ C = websocket /\ is_Some (active_connections self !! channel)).
Proof.
  intros Hconn. pose proof (connect_Ok_accept _ _ _ _ _ Hconn) as Hacc.
  destruct (active_connections self !! channel) as [members|] eqn:Hch.
  - rewrite (connect_known _ _ _ _ _ Hacc Hch) in Hconn. injection Hconn as <-.
    unfold in_channel. cbn. destruct (decide (X = channel)) as [->|HX].
    + rewrite lookup_insert_eq, Hch. split.
      * intros (s & [= <-] & Hin). apply elem_of_union in Hin as [?|Hin].
        -- left. eauto.
        -- right. apply elem_of_singleton in Hin. eauto.
      * intros [(s & [= <-] & Hin)|(_ & -> & _)];
          eexists; (split; [done|]); set_solver.
    + rewrite lookup_insert_ne by done. split; [by left|].
      intros [?|(? & _)]; [done | congruence].
  - rewrite (connect_unknown _ _ _ _ Hacc Hch) in Hconn. injection Hconn as <-.
    split; [by left|]. intros [?|(_ & _ & [? ?])]; done.
Qed.

Lemma attempts_sent tr message (l : list nat) C :
  NoDup l ->
  attempts C (sent tr message <$> l) = if decide (C ∈ l) then 1%nat else 0%nat.
Proof.
  unfold attempts. induction 1 as [|c l Hc Hnd IH]; cbn [fmap list_fmap].
  - by rewrite decide_False by set_solver.
  - destruct (decide (c = C)) as [->|Hne].
    + rewrite filter_cons_True by done. cbn [length]. rewrite IH.
      rewrite decide_False by done. by rewrite decide_True by set_solver.
    + rewrite filter_cons_False by done. rewrite IH.
      destruct (decide (C ∈ l)).
      * by rewrite decide_True by set_solver.
      * by rewrite decide_False by set_solver.
Qed.

Lemma deliveries_sent tr message (l : list nat) C :
  NoDup l -> send_text tr C message = Ok tt ->
  deliveries C message (sent tr message <$> l) =
    if decide (C ∈ l) then 1%nat else 0%nat.
Proof.
  intros Hnd Hsend. unfold deliveries.
  induction Hnd as [|c l Hc Hnd IH]; cbn [fmap list_fmap].
  - by rewrite decide_False by set_solver.
  - destruct (decide (c = C)) as [->|Hne].
    + rewrite filter_cons_True by (unfold sent; by rewrite Hsend).
      cbn [length]. rewrite IH.
      rewrite decide_False by done. by rewrite decide_True by set_solver.
    + rewrite filter_cons_False by (unfold sent; congruence). rewrite IH.
      destruct (decide (C ∈ l)).
      * by rewrite decide_True by set_solver.
      * by rewrite decide_False by set_solver.
Qed.

Lemma keeps_membership self o X C :
  consistent self -> keeps C o -> in_channel self X C ->
  in_channel (step self o) X C.
Proof.
  intros Hcons Hk Hin. destruct o as [tr ws ch|ws|tr ch m]; cbn in *.
  - destruct (connect tr self ws ch) as [self'|e] eqn:Hc; [|done].
    apply (in_channel_connect _ _ _ _ _ X C Hc). by left.
  - apply in_channel_disconnect; [done|]. split; [done|congruence].
  - destruct (active_connections self !! ch) as [members|] eqn:Hch.
    + destruct (broadcast_known tr self ch m members Hch) as (failed & -> & Hf).
      apply in_channel_disconnect_all; [done|]. split; [done|].
      rewrite elem_of_elements, Hf. intros [_ [e He]]. congruence.
    + by rewrite broadcast_unknown.
Qed.

Lemma keeps_membership_run self ops X C :
  consistent self -> Forall (keeps C) ops -> in_channel self X C ->
  in_channel (run self ops) X C.
Proof.
  revert self. induction ops as [|o ops IH]; intros self Hcons Hk Hin; cbn; [done|].
  apply Forall_cons in Hk as [Ho Hk].
  apply IH; [by apply consistent_step | done | by apply keeps_membership].
Qed.

Lemma no_connect_absent self o C :
  consistent self -> no_connect C o ->
  (forall X, ~ in_channel self X C) ->
  forall X, ~ in_channel (step self o) X C.
Proof.
  intros Hcons Hn Habs X. destruct o as [tr ws ch|ws|tr ch m]; cbn in *.
  - destruct (connect tr self ws ch) as [self'|e] eqn:Hc; [|apply Habs].
    rewrite (in_channel_connect _ _ _ _ _ X C Hc).
    intros [?|(_ & -> & _)]; [by eapply Habs | done].
  - rewrite in_channel_disconnect by done. intros [? _]. by eapply Habs.
  - destruct (active_connections self !! ch) as [members|] eqn:Hch.
    + destruct (broadcast_known tr self ch m members Hch) as (failed & -> & Hf).
      rewrite in_channel_disconnect_all by done. intros [? _]. by eapply Habs.
    + rewrite broadcast_unknown by done. apply Habs.
Qed.

Lemma no_connect_absent_run self ops C :
  consistent self -> Forall (no_connect C) ops ->
  (forall X, ~ in_channel self X C) ->
  forall X, ~ in_channel (run self ops) X C.
Proof.
  revert self. induction ops as [|o ops IH]; intros self Hcons Hn Habs; cbn; [done|].
  apply Forall_cons in Hn as [Ho Hn].
  apply IH; [by apply consistent_step | done | by apply no_connect_absent].
Qed.
End manager_facts.

(** ** [broadcast] among the other coroutines *)

Section among_facts.
Implicit Types (self : ConnectionManager) (tr : transport) (m : payload).
Implicit Types (X : string) (C : nat) (ops : list op) (awaits : list (list op)).

Lemma interfere_run X self ops : (interfere X self ops).1 = run self ops.
Proof.
  revert self. induction ops as [|o ops IH]; intros self; cbn; [done|].
  specialize (IH (step self o)).
  by destruct (interfere X (step self o) ops) as [s t].
Qed.

Lemma interfere_untouched X self ops :
  (interfere X self ops).2 = false ->
  channel_set (run self ops) X = channel_set self X.
Proof.
  revert self. induction ops as [|o ops IH]; intros self; [done|].
  cbn [interfere]. change (run self (o :: ops)) with (run (step self o) ops).
  specialize (IH (step self o)).
  destruct (interfere X (step self o) ops) as [s t]. cbn [snd] in *.
  intros Ht. apply orb_false_elim in Ht as [Ho Ht].
  rewrite IH by done.
  apply negb_false_iff, bool_decide_eq_true in Ho. done.
Qed.

Lemma channel_set_lookup self X members :
  active_connections self !! X = Some members -> channel_set self X = members.
Proof. unfold channel_set. by intros ->. Qed.

Lemma in_channel_channel_set self X C :
  in_channel self X C <-> C ∈ channel_set self X.
Proof.
  unfold in_channel, channel_set. split.
  - by intros (members & -> & ?).
  - destruct (active_connections self !! X) as [members|]; cbn; [eauto|set_solver].
Qed.

(** The loop when no other coroutine changes the set: it ends, every pending
    member got its send, and the failed ones are collected. *)
Lemma iterate_among_quiet tr m X used (pending : list nat) awaits self
    (d : gset nat) :
  size (channel_set self X) = used ->
  quiet X self (length pending) awaits = true ->
  exists d',
    iterate_among tr m X used pending awaits self false d =
      (Finished, run self (concat (take (length pending) awaits)),
       sent tr m <$> pending, d') /\
    (forall c, c ∈ d' <-> c ∈ d \/ (c ∈ pending /\ fails tr m c)) /\
    channel_set (run self (concat (take (length pending) awaits))) X =
      channel_set self X.
Proof.
  revert awaits self d.
  induction pending as [|c pending IH]; intros awaits self d Hsize Hq.
  - cbn. rewrite bool_decide_eq_true_2 by done. cbn.
    exists d. split; [done|]. split; [set_solver|done].
  - cbn [iterate_among length quiet] in *.
    rewrite bool_decide_eq_true_2 by done. cbn [negb].
    pose proof (interfere_run X self (hd [] awaits)) as Hrun.
    pose proof (interfere_untouched X self (hd [] awaits)) as Hun.
    destruct (interfere X self (hd [] awaits)) as [self' touched].
    cbn in Hrun, Hun. subst self'.
    apply andb_true_iff in Hq as [Ht Hq]. apply negb_true_iff in Ht. subst touched.
    specialize (Hun eq_refl).
    assert (Hrun' : run self (concat (take (S (length pending)) awaits)) =
                    run (run self (hd [] awaits))
                        (concat (take (length pending) (tl awaits)))).
    { destruct awaits as [|a awaits]; cbn.
      - by rewrite take_nil.
      - unfold run. by rewrite foldl_app. }
    rewrite Hrun'.
    destruct (send_text tr c m) as [[]|e] eqn:Hsend.
    + destruct (IH (tl awaits) (run self (hd [] awaits)) d) as (d' & -> & Hd' & Hset);
        [by rewrite Hun | done |].
      exists d'. split; [|split].
      * cbn. unfold sent at 2. by rewrite Hsend.
      * intros c'. rewrite Hd'. unfold fails. split.
        -- intros [?|[? ?]]; [by left | right; set_solver].
        -- intros [?|[Hc' [e He]]]; [by left|].
           apply elem_of_cons in Hc' as [->|?]; [congruence | right; eauto].
      * by rewrite Hset.
    + destruct (IH (tl awaits) (run self (hd [] awaits)) (d ∪ {[c]}))
        as (d' & -> & Hd' & Hset); [by rewrite Hun | done |].
      exists d'. split; [|split].
      * cbn. unfold sent at 2. by rewrite Hsend.
      * intros c'. rewrite Hd'. unfold fails. split.
        -- intros [Hc'|[? ?]]; [|right; set_solver].
           apply elem_of_union in Hc' as [?|Hc']; [by left|].
           apply elem_of_singleton in Hc' as ->. right. split; [set_solver | eauto].
        -- intros [?|[Hc' [e' He']]]; [left; set_solver|].
           apply elem_of_cons in Hc' as [->|?]; [left; set_solver | right; eauto].
      * by rewrite Hset.
Qed.

(** The loop when some coroutine changes the set during one of its awaits:
    it does not run to its end. *)
Lemma iterate_among_disturbed tr m X used (pending : list nat) awaits self
    (d : gset nat) :
  size (channel_set self X) = used ->
  quiet X self (length pending) awaits = false ->
  (iterate_among tr m X used pending awaits self false d).1.1.1 <> Finished.
Proof.
  revert awaits self d.
  induction pending as [|c pending IH]; intros awaits self d Hsize Hq; [done|].
  cbn [iterate_among length quiet] in *.
  rewrite bool_decide_eq_true_2 by done. cbn [negb].
  pose proof (interfere_run X self (hd [] awaits)) as Hrun.
  pose proof (interfere_untouched X self (hd [] awaits)) as Hun.
  destruct (interfere X self (hd [] awaits)) as [self' touched].
  cbn in Hrun, Hun. subst self'.
  set (dd := match send_text tr c m with
             | Ok _ => _ | Raise _ => _ end).
  destruct dd as [ev d1].
  destruct touched.
  - destruct pending as [|c' pending]; cbn [iterate_among];
      destruct (bool_decide (size (channel_set (run self (hd [] awaits)) X) = used));
      cbn; done.
  - cbn in Hq. specialize (Hun eq_refl).
    specialize (IH (tl awaits) (run self (hd [] awaits)) d1).
    destruct (iterate_among tr m X used pending (tl awaits)
                (run self (hd [] awaits)) false d1) as [[[en s] l] d2].
    cbn in *. apply IH; [by rewrite Hun | done].
Qed.

(** A change of size during the first await: the next [next()] raises. *)
Lemma iterate_among_resized tr m X used c0 (rest : list nat) ops awaits self
    (d : gset nat) :
  size (channel_set self X) = used ->
  size (channel_set (run self ops) X) <> used ->
  exists d',
    iterate_among tr m X used (c0 :: rest) (ops :: awaits) self false d =
      (Raised RuntimeError, run self ops, [sent tr m c0], d').
Proof.
  intros Hsize Hne. cbn [iterate_among hd tl].
  rewrite bool_decide_eq_true_2 by done. cbn [negb].
  pose proof (interfere_run X self ops) as Hrun.
  destruct (interfere X self ops) as [self' touched]. cbn in Hrun. subst self'.
  unfold sent.
  destruct (send_text tr c0 m) as [[]|e];
    (destruct rest as [|c1 rest]; cbn [iterate_among];
     rewrite bool_decide_eq_false_2 by done; cbn; eauto).
Qed.

Lemma broadcast_among_quiet tr self X m members awaits :
  active_connections self !! X = Some members ->
  quiet X self (size members) awaits = true ->
  exists failed : gset nat,
    broadcast_among tr self X m awaits =
      {| br_end := Finished;
         br_manager :=
           foldl disconnect (run self (concat (take (size members) awaits)))
                 (elements failed);
         br_log := sent tr m <$> elements members |} /\
    (forall c, c ∈ failed <-> c ∈ members /\ fails tr m c).
Proof.
  intros Hmem Hq. unfold broadcast_among. rewrite Hmem.
  destruct (iterate_among_quiet tr m X (size members) (elements members) awaits
              self ∅) as (d' & Hit & Hd' & _).
  { by rewrite (channel_set_lookup _ _ _ Hmem). }
  { done. }
  change (length (elements members)) with (size members) in Hit.
  rewrite Hit. exists d'. split; [done|].
  intros c. rewrite Hd', elem_of_elements. set_solver.
Qed.

Lemma broadcast_among_resized tr self X m members c0 (rest : list nat) ops awaits :
  active_connections self !! X = Some members ->
  elements members = c0 :: rest ->
  size (channel_set (run self ops) X) <> size members ->
  broadcast_among tr self X m (ops :: awaits) =
    {| br_end := Raised RuntimeError; br_manager := run self ops;
       br_log := [sent tr m c0] |}.
Proof.
  intros Hmem Hel Hne. unfold broadcast_among. rewrite Hmem, Hel.
  destruct (iterate_among_resized tr m X (size members) c0 rest ops awaits self ∅)
    as (d' & ->); [by rewrite (channel_set_lookup _ _ _ Hmem) | done | done].
Qed.

(** [broadcast] is [broadcast_among] with nothing scheduled at the awaits. *)
Lemma broadcast_among_alone tr self X m :
  let r := broadcast_among tr self X m [] in
  br_end r = Finished /\
  broadcast tr self X m = Ok (br_manager r, br_log r).
Proof.
  cbn zeta.
  destruct (active_connections self !! X) as [members|] eqn:Hmem.
  - assert (Hq : quiet X self (size members) [] = true).
    { generalize (size members). induction n as [|n IH]; cbn; [done|]. exact IH. }
    destruct (broadcast_among_quiet tr self X m members [] Hmem Hq)
      as (failed & -> & Hf).
    destruct (broadcast_known tr self X m members Hmem) as (failed' & -> & Hf').
    assert (failed' = failed) as -> by (apply set_eq; intros c; by rewrite Hf, Hf').
    cbn. by rewrite take_nil.
  - unfold broadcast_among. rewrite Hmem. cbn.
    split; [done|]. by apply broadcast_unknown.
Qed.

(** Whether the loop of a broadcast ends is decided by the other
    coroutines alone. *)
Lemma broadcast_among_finished_iff tr self X m members awaits :
  active_connections self !! X = Some members ->
  br_end (broadcast_among tr self X m awaits) = Finished <->
  quiet X self (size members) awaits = true.
Proof.
  intros Hmem. split.
  - intros Hend. destruct (quiet X self (size members) awaits) eqn:Hq; [done|].
    exfalso. revert Hend. unfold broadcast_among. rewrite Hmem.
    pose proof (iterate_among_disturbed tr m X (size members) (elements members)
                  awaits self ∅
                  (f_equal size (channel_set_lookup _ _ _ Hmem)) Hq) as Hd.
    destruct (iterate_among tr m X (size members) (elements members) awaits self
                false ∅) as [[[en s] l] d2]. cbn in *. done.
  - intros Hq.
    by destruct (broadcast_among_quiet tr self X m members awaits Hmem Hq)
      as (failed & -> & _).
Qed.
End among_facts.


(** ** Claims on the connection manager *)

Lemma attempts_other tr m (c0 c : nat) :
  c <> c0 -> attempts c [sent tr m c0] = 0%nat.
Proof.
  intros Hne. unfold attempts. by rewrite filter_cons_False by (cbn; congruence).
Qed.

Lemma deliveries_other tr m (c0 C : nat) :
  c0 <> C -> deliveries C m [sent tr m c0] = 0%nat.
Proof.
  intros Hne. unfold deliveries.
  by rewrite filter_cons_False by (unfold sent; congruence).
Qed.

(** When no other coroutine changes the set of [X] during the awaits of the
    broadcast, a connected [C] whose send returns is delivered [m] once. *)
Lemma quiet_broadcast_delivers_once
    (tr0 tr : transport) (self self1 : ConnectionManager) (C : nat) (X : string)
    (m : payload) (between : list op) (awaits : list (list op)) :
  reachable self ->
  X ∈ CHANNELS ->
  connect tr0 self C X = Ok self1 ->
  Forall (keeps C) between ->
  send_text tr C m = Ok tt ->
  quiet X (run self1 between) (size (channel_set (run self1 between) X)) awaits
    = true ->
  let r := broadcast_among tr (run self1 between) X m awaits in
  br_end r = Finished /\ deliveries C m (br_log r) = 1%nat.
Proof.
  intros Hreach HX Hconn Hops Hsend Hq.
  assert (Hcons1 : consistent self1).
  { eapply consistent_connect; [by apply reachable_consistent | done]. }
  assert (Hin1 : in_channel self1 X C).
  { apply (in_channel_connect _ _ _ _ _ X C Hconn). right.
    by rewrite reachable_channels. }
  destruct (keeps_membership_run self1 between X C Hcons1 Hops Hin1)
    as (members & Hmem & HC).
  rewrite (channel_set_lookup _ _ _ Hmem) in Hq.
  destruct (broadcast_among_quiet tr _ X m members awaits Hmem Hq)
    as (failed & Hb & _).
  cbn zeta. rewrite Hb. cbn [br_end br_log br_manager]. split; [done|].
  rewrite deliveries_sent by (apply NoDup_elements || done).
  by rewrite decide_True by by apply elem_of_elements.
Qed.

(** C1, on the code. [broadcast] iterates over the live set of the channel
    and awaits a send in every step. With [C] connected to [X] and not
    disconnected since, and a send to [C] that returns: when a broadcast
    that starts after [connect(C, X)] returned visits another member first,
    and another coroutine changes the size of the set of [X] during that
    first awaited send (a handler connects or disconnects a member),
    [RuntimeError] leaves [broadcast] at the next step of the loop, and
    [C], still a member, has been sent nothing. *)
Theorem broadcast_interrupted_misses_member
    (tr0 tr : transport) (self self1 : ConnectionManager) (C c0 : nat)
    (rest : list nat) (X : string) (m : payload) (between ops : list op)
    (awaits : list (list op)) :
  reachable self ->
  X ∈ CHANNELS ->
  connect tr0 self C X = Ok self1 ->
  Forall (keeps C) between ->
  send_text tr C m = Ok tt ->
  elements (channel_set (run self1 between) X) = c0 :: rest ->
  c0 <> C ->
  Forall (keeps C) ops ->
  size (channel_set (run (run self1 between) ops) X) <>
    size (channel_set (run self1 between) X) ->
  let r := broadcast_among tr (run self1 between) X m (ops :: awaits) in
  br_end r = Raised RuntimeError /\
  deliveries C m (br_log r) = 0%nat /\
  in_channel (br_manager r) X C.
Proof.
  intros Hreach HX Hconn Hbetween Hsend Hel Hne Hops Hsize.
  assert (Hcons1 : consistent self1).
  { eapply consistent_connect; [by apply reachable_consistent | done]. }
  assert (Hin1 : in_channel self1 X C).
  { apply (in_channel_connect _ _ _ _ _ X C Hconn). right.
    by rewrite reachable_channels. }
  pose proof (keeps_membership_run self1 between X C Hcons1 Hbetween Hin1) as Hin2.
  destruct Hin2 as (members & Hmem & HC).
  rewrite (channel_set_lookup _ _ _ Hmem) in Hel, Hsize.
  cbn zeta.
  rewrite (broadcast_among_resized tr _ X m members c0 rest ops awaits Hmem Hel Hsize).
  cbn [br_end br_log br_manager]. split; [done|]. split; [by apply deliveries_other|].
  apply keeps_membership_run; [by apply consistent_run | done | by exists members].
Qed.

Lemma broadcast_interrupted_misses_member_witness :
  let self1 := run init [OpConnect tr_ok 2%nat "tower-ai-feed";
                         OpConnect tr_ok 1%nat "tower-ai-feed"] in
  let r := broadcast_among tr_ok self1 "tower-ai-feed" (Raw "tick")
             [[OpConnect tr_ok 3%nat "tower-ai-feed"]] in
  br_end r = Raised RuntimeError /\
  deliveries 1%nat (Raw "tick") (br_log r) = 0%nat /\
  in_channel (br_manager r) "tower-ai-feed" 1%nat.
Proof.
  apply (broadcast_interrupted_misses_member tr_ok tr_ok
           (run init [OpConnect tr_ok 2%nat "tower-ai-feed"]) _ 1%nat 2%nat [1%nat]
           "tower-ai-feed" (Raw "tick") []
           [OpConnect tr_ok 3%nat "tower-ai-feed"] []).
  - by eexists.
  - apply (bool_decide_unpack _). by vm_compute.
  - by vm_compute.
  - constructor.
  - reflexivity.
  - by vm_compute.
  - lia.
  - repeat constructor.
  - by vm_compute.
Defined.

(** C2. The two membership maps agree, [C] is in [active_connections[X]] if
    and only if [X] is in [user_channels[C]], in the initial manager and
    after any sequence of connect, disconnect and broadcast operations. *)
Theorem membership_maps_consistent (ops : list op) (X : string) (C : nat) :
  (in_channel init X C <-> has_channel init C X) /\
  (in_channel (run init ops) X C <-> has_channel (run init ops) C X).
Proof.
  split.
  - apply consistent_init.
  - apply consistent_run, consistent_init.
Qed.

(** When no other coroutine changes the set of [X] during the awaits of the
    broadcast, a member whose send raises is removed from every channel and
    every member gets its send. *)
Lemma quiet_broadcast_failed_send_cleanup
    (tr : transport) (self : ConnectionManager) (X : string) (m : payload)
    (members : gset nat) (C : nat) (e : exn) (awaits : list (list op)) :
  reachable self ->
  active_connections self !! X = Some members ->
  C ∈ members ->
  send_text tr C m = Raise e ->
  quiet X self (size members) awaits = true ->
  let r := broadcast_among tr self X m awaits in
  br_end r = Finished /\
  (forall Y, ~ in_channel (br_manager r) Y C) /\
  user_channels (br_manager r) !! C = None /\
  (forall c, c ∈ members -> attempts c (br_log r) = 1%nat).
Proof.
  intros Hreach Hmem HC Hsend Hq.
  destruct (broadcast_among_quiet tr self X m members awaits Hmem Hq)
    as (failed & Hb & Hf).
  assert (HCf : C ∈ elements failed).
  { apply elem_of_elements, Hf. split; [done|]. by exists e. }
  cbn zeta. rewrite Hb. cbn [br_end br_log br_manager]. split; [done|]. split; [|split].
  - intros Y.
    rewrite in_channel_disconnect_all
      by by apply consistent_run, reachable_consistent.
    tauto.
  - rewrite user_channels_disconnect_all. by rewrite decide_True.
  - intros c Hc. rewrite attempts_sent by apply NoDup_elements.
    by rewrite decide_True by by apply elem_of_elements.
Qed.

(** C4, on the code. When another coroutine changes the size of the set of
    [X] while [broadcast] awaits its first send, [RuntimeError] leaves
    [broadcast] at the next step of its loop over the live set: the members
    not yet visited get no send attempt, and the cleanup loop is not
    reached, so a member [C] whose send raises is still in [X] and still
    has [X] in its entry of [user_channels]. *)
Theorem broadcast_interrupted_skips_cleanup
    (tr : transport) (self : ConnectionManager) (X : string) (m : payload)
    (members : gset nat) (c0 : nat) (rest : list nat) (C : nat) (e : exn)
    (ops : list op) (awaits : list (list op)) :
  reachable self ->
  active_connections self !! X = Some members ->
  elements members = c0 :: rest ->
  C ∈ members ->
  send_text tr C m = Raise e ->
  Forall (keeps C) ops ->
  size (channel_set (run self ops) X) <> size members ->
  let r := broadcast_among tr self X m (ops :: awaits) in
  br_end r = Raised RuntimeError /\
  in_channel (br_manager r) X C /\
  has_channel (br_manager r) C X /\
  (forall c, c ∈ rest -> attempts c (br_log r) = 0%nat).
Proof.
  intros Hreach Hmem Hel HC Hsend Hops Hsize. cbn zeta.
  rewrite (broadcast_among_resized tr self X m members c0 rest ops awaits
             Hmem Hel Hsize). cbn [br_end br_log br_manager].
  assert (Hin : in_channel (run self ops) X C).
  { apply keeps_membership_run;
      [by apply reachable_consistent | done | by exists members]. }
  split; [done|]. split; [done|]. split.
  - by apply (reachable_consistent _ (reachable_run _ ops Hreach)).
  - intros c Hc. apply attempts_other. intros ->.
    pose proof (NoDup_elements members) as Hnd. rewrite Hel in Hnd.
    by apply NoDup_cons in Hnd as [? _].
Qed.

Lemma broadcast_interrupted_skips_cleanup_witness :
  let self := run init [OpConnect tr_ok 1%nat "tower-ai-feed";
                        OpConnect tr_ok 2%nat "tower-ai-feed"] in
  let r := broadcast_among (tr_broken 2%nat) self "tower-ai-feed" (Raw "tick")
             [[OpConnect tr_ok 3%nat "tower-ai-feed"]] in
  br_end r = Raised RuntimeError /\
  in_channel (br_manager r) "tower-ai-feed" 2%nat /\
  has_channel (br_manager r) 2%nat "tower-ai-feed" /\
  (forall c, c ∈ [1%nat] -> attempts c (br_log r) = 0%nat).
Proof.
  intros self.
  apply (broadcast_interrupted_skips_cleanup (tr_broken 2%nat) self "tower-ai-feed"
           (Raw "tick") {[1%nat; 2%nat]} 2%nat [1%nat] 2%nat RuntimeError
           [OpConnect tr_ok 3%nat "tower-ai-feed"] []).
  - by eexists.
  - by vm_compute.
  - by vm_compute.
  - apply (bool_decide_unpack _). by vm_compute.
  - reflexivity.
  - repeat constructor.
  - by vm_compute.
Defined.

(** C6. After [disconnect(C)] no broadcast on any channel sends to [C], for
    as long as [C] is not connected again; a second [disconnect(C)] changes
    nothing, and neither does [disconnect] of a connection that is not
    registered. *)
Theorem disconnect_final_and_idempotent (self : ConnectionManager) (C : nat) :
  reachable self ->
  (forall ops tr X m,
     Forall (no_connect C) ops ->
     exists self' log,
       broadcast tr (run (disconnect self C) ops) X m = Ok (self', log) /\
       attempts C log = 0%nat) /\
  disconnect (disconnect self C) C = disconnect self C /\
  (user_channels self !! C = None -> disconnect self C = self).
Proof.
  intros Hreach. pose proof (reachable_consistent _ Hreach) as Hcons.
  repeat split.
  - intros ops tr X m Hops.
    assert (Habs : forall Y, ~ in_channel (run (disconnect self C) ops) Y C).
    { apply no_connect_absent_run; [by apply consistent_disconnect | done |].
      intros Y. rewrite in_channel_disconnect by done. tauto. }
    destruct (active_connections (run (disconnect self C) ops) !! X)
      as [members|] eqn:Hmem.
    + destruct (broadcast_known tr _ X m members Hmem) as (failed & Hb & _).
      eexists _, _. split; [exact Hb|].
      rewrite attempts_sent by apply NoDup_elements.
      rewrite decide_False; [done|].
      rewrite elem_of_elements. intros HC. apply (Habs X). by exists members.
    + rewrite broadcast_unknown by done. by eexists _, _.
  - apply disconnect_unregistered.
    rewrite disconnect_user_channels. apply lookup_delete_eq.
  - apply disconnect_unregistered.
Qed.

Lemma disconnect_final_and_idempotent_witness :
  let self := run init [OpConnect tr_ok 1%nat "tower-ai-feed";
                        OpConnect tr_ok 1%nat "floor-pulse-4"] in
  (forall ops tr X m,
     Forall (no_connect 1%nat) ops ->
     exists self' log,
       broadcast tr (run (disconnect self 1%nat) ops) X m = Ok (self', log) /\
       attempts 1%nat log = 0%nat) /\
  disconnect (disconnect self 1%nat) 1%nat = disconnect self 1%nat /\
  (user_channels self !! 1%nat = None -> disconnect self 1%nat = self).
Proof.
  intros self. apply (disconnect_final_and_idempotent self 1%nat). by eexists.
Defined.

(** C10. A broadcast on a name that is not one of the channel keys sends
    nothing, leaves the manager as it is, and raises nothing. *)
Theorem broadcast_unknown_channel_noop
    (tr : transport) (self : ConnectionManager) (X : string) (m : payload) :
  reachable self ->
  X ∉ CHANNELS ->
  broadcast tr self X m = Ok (self, []).
Proof.
  intros Hreach HX. apply broadcast_unknown.
  apply eq_None_not_Some. by rewrite reachable_channels.
Qed.

Lemma broadcast_unknown_channel_noop_witness :
  let self := run init [OpConnect tr_ok 1%nat "tower-ai-feed"] in
  broadcast (tr_broken 1%nat) self "floor-pulse-3" (Raw "tick") = Ok (self, []).
Proof.
  intros self. apply broadcast_unknown_channel_noop.
  - by eexists.
  - apply (bool_decide_unpack _). by vm_compute.
Defined.


(** ** Claims on the tower-feed handler *)

(** C7, as stated, fails: a subscribe to the unknown name ["floor-pulse-99"]
    is answered with a "subscribed" reply although no membership is added,
    and a subscribe to the known name ["tower-ai-feed"] gets neither. *)
Lemma subscribe_unknown_channel_replied :
  let self := run init [OpConnect tr_ok 1%nat "tower-ai-feed"] in
  ("floor-pulse-99" ∉ CHANNELS) /\
  on_message tr_ok self 1%nat (subscribe_message (JStr "floor-pulse-99")) =
    Ok (self, [sent tr_ok (subscribed_reply "floor-pulse-99") 1%nat]) /\
  ("tower-ai-feed" ∈ CHANNELS) /\
  on_message tr_ok init 1%nat (subscribe_message (JStr "tower-ai-feed")) =
    Ok (init, []).
Proof.
  intros self. split; [|split; [|split]].
  - apply (bool_decide_unpack _). by vm_compute.
  - by vm_compute.
  - apply (bool_decide_unpack _). by vm_compute.
  - by vm_compute.
Qed.

(** C7, amended. For a subscribe message whose channel is a string: when
    the string starts with ["floor-pulse-"] and is a known channel name,
    and the accept inside [connect] returns, the membership is added and
    the "subscribed" reply is sent; for a name that is not known no
    membership is added; for a name without the prefix nothing is added and
    nothing is sent; and when the accept raises, the turn ends in a
    disconnect. *)
Theorem subscribe_gated_by_prefix
    (tr : transport) (self : ConnectionManager) (C : nat)
    (message : gmap string json) (name : string) :
  reachable self ->
  dict_get message "type" = JStr "subscribe" ->
  dict_get message "channel" = JStr name ->
  (startswith "floor-pulse-" name = true -> name ∈ CHANNELS ->
   accept tr C = Ok tt ->
     exists self',
       on_message tr self C message =
         Ok (self', [sent tr (subscribed_reply name) C]) /\
       in_channel self' name C /\ has_channel self' C name) /\
  (name ∉ CHANNELS ->
     forall self' log, on_message tr self C message = Ok (self', log) ->
       self' = self) /\
  (startswith "floor-pulse-" name = false ->
     on_message tr self C message = Ok (self, [])) /\
  (startswith "floor-pulse-" name = true ->
     forall e, accept tr C = Raise e ->
       tower_feed_turn tr self C (Ok message) = (disconnect self C, [], false)).
Proof.
  intros Hreach Htype Hchan. unfold tower_feed_turn. cbn [mbind result_bind].
  unfold on_message. rewrite Htype, Hchan.
  rewrite decide_False by done. rewrite decide_True by done.
  assert (Hreply : forall self' : ConnectionManager,
            (ev ← send_personal_message tr (subscribed_reply name) C;
             Ok (self', [ev])) =
            Ok (self', [sent tr (subscribed_reply name) C])).
  { intros self'. unfold send_personal_message, sent, try_except.
    by destruct (send_text tr C (subscribed_reply name)) as [[]|e]. }
  assert (Htruthy : startswith "floor-pulse-" name = true ->
                    truthy (JStr name) = true).
  { by destruct name. }
  split; [|split; [|split]].
  - intros Hpre Hknown Hacc. rewrite Hpre, (Htruthy Hpre).
    apply (reachable_channels self name Hreach) in Hknown as [members Hch].
    rewrite (connect_known _ _ _ _ _ Hacc Hch). cbn [mbind result_bind].
    eexists. split; [apply Hreply|]. split.
    + exists (members ∪ {[C]}). cbn. rewrite lookup_insert_eq.
      split; [done | set_solver].
    + eexists. cbn. rewrite lookup_insert_eq. split; [done | set_solver].
  - intros Hunknown self' log.
    assert (Hch : active_connections self !! name = None).
    { apply eq_None_not_Some. by rewrite (reachable_channels self name Hreach). }
    destruct (truthy (JStr name)); [|by intros [= <- _]].
    destruct (startswith "floor-pulse-" name); [|by intros [= <- _]].
    destruct (accept tr C) as [[]|e] eqn:Hacc.
    + rewrite (connect_unknown _ _ _ _ Hacc Hch). cbn [mbind result_bind].
      rewrite Hreply. by intros [= <- _].
    + by rewrite (connect_raises _ _ _ _ _ Hacc).
  - intros Hpre. rewrite Hpre. by destruct (truthy (JStr name)).
  - intros Hpre e Hacc. rewrite Hpre, (Htruthy Hpre).
    by rewrite (connect_raises _ _ _ _ _ Hacc).
Qed.

Lemma subscribe_gated_by_prefix_witness :
  let self := run init [OpConnect tr_ok 1%nat "tower-ai-feed"] in
  let message := subscribe_message (JStr "floor-pulse-9") in
  exists self',
    on_message tr_ok self 1%nat message =
      Ok (self', [sent tr_ok (subscribed_reply "floor-pulse-9") 1%nat]) /\
    in_channel self' "floor-pulse-9" 1%nat /\
    has_channel self' 1%nat "floor-pulse-9".
Proof.
  intros self message.
  apply (subscribe_gated_by_prefix tr_ok self 1%nat message "floor-pulse-9").
  - by eexists.
  - by vm_compute.
  - by vm_compute.
  - reflexivity.
  - apply (bool_decide_unpack _). by vm_compute.
  - reflexivity.
Defined.

(** ** Claims on the Redis listener *)

Lemma listen_loop_subscribes tr self stream n k :
  lr_subscribes (listen_loop tr self stream n k) = n.
Proof.
  revert self k. induction stream as [|[message|e] stream IH]; intros self k; cbn.
  - done.
  - destruct (String.eqb (msg_type message) "message"); [|apply IH].
    destruct (broadcast_total tr self (msg_channel message) (Raw (msg_data message)))
      as (self' & log & ->). cbn. apply IH.
  - done.
Qed.

Lemma listen_loop_error tr self (before : list bus_message) e after n k :
  let r := listen_loop tr self ((Ok <$> before) ++ Raise e :: after)%list n k in
  let r0 := listen_loop tr self (Ok <$> before) n k in
  lr_outcome r = Raise e /\
  lr_consumed r = S (length before + k) /\
  lr_manager r = lr_manager r0 /\
  lr_log r = lr_log r0.
Proof.
  revert self k. induction before as [|message before IH]; intros self k; cbn.
  - done.
  - destruct (String.eqb (msg_type message) "message").
    + destruct (broadcast_total tr self (msg_channel message) (Raw (msg_data message)))
        as (self' & log & ->). cbn.
      destruct (IH self' (S k)) as (H1 & H2 & H3 & H4).
      repeat split; [done | rewrite H2; lia | done | by rewrite H4].
    + destruct (IH self (S k)) as (H1 & H2 & H3 & H4).
      repeat split; [done | rewrite H2; lia | done | done].
Qed.

(** C9, as stated, fails: on a bus whose first subscribe raises and whose
    second would return, the listener ends with the error after one
    subscribe; on a bus that drops after one message, it ends with the
    error and never reads the message that follows. *)
Lemma listener_does_not_retry :
  let r := redis_listener tr_ok (run init [OpConnect tr_ok 1%nat "tower-ai-feed"])
             flaky_bus in
  bus_subscribe flaky_bus 1%nat = Ok tt /\
  lr_outcome r = Raise ConnectionError /\
  lr_subscribes r = 1%nat /\
  lr_log r = [] /\
  let r' := redis_listener tr_ok (run init [OpConnect tr_ok 1%nat "tower-ai-feed"])
              dropping_bus in
  lr_outcome r' = Raise ConnectionError /\
  lr_subscribes r' = 1%nat /\
  lr_consumed r' = 2%nat /\
  lr_log r' = [sent tr_ok (Raw "tick") 1%nat].
Proof. by vm_compute. Qed.

(** C9, amended. On the first error of the bus, at subscribe or while
    listening, the listener ends with that error: it has subscribed once,
    has taken nothing from the bus after the error, and has handled the
    messages before it as it would have without the error. *)
Theorem listener_ends_on_bus_error
    (tr : transport) (self : ConnectionManager) (b : bus) (e : exn)
    (before : list bus_message) (n : nat) :
  bus_error b e before n ->
  let r := redis_listener tr self b in
  let r0 := redis_listener tr self
              {| bus_subscribe := fun _ => Ok tt; bus_listen := Ok <$> before |} in
  lr_outcome r = Raise e /\
  lr_subscribes r = 1%nat /\
  lr_consumed r = n /\
  lr_manager r = lr_manager r0 /\
  lr_log r = lr_log r0.
Proof.
  intros [Hsub | before' after Hsub Hlisten]; cbn zeta; unfold redis_listener;
    rewrite Hsub.
  - done.
  - cbn [bus_subscribe bus_listen]. rewrite Hlisten.
    destruct (listen_loop_error tr self before' e after 1 0) as (H1 & H2 & H3 & H4).
    rewrite listen_loop_subscribes. rewrite H2, Nat.add_0_r. done.
Qed.

Lemma listener_ends_on_bus_error_witness :
  let self := run init [OpConnect tr_ok 1%nat "tower-ai-feed"] in
  let before := [{| msg_type := "message"; msg_channel := "tower-ai-feed";
                    msg_data := "tick" |}] in
  let r := redis_listener tr_ok self dropping_bus in
  let r0 := redis_listener tr_ok self
              {| bus_subscribe := fun _ => Ok tt; bus_listen := Ok <$> before |} in
  lr_outcome r = Raise ConnectionError /\
  lr_subscribes r = 1%nat /\
  lr_consumed r = 2%nat /\
  lr_manager r = lr_manager r0 /\
  lr_log r = lr_log r0.
Proof.
  intros self before.
  apply (listener_ends_on_bus_error tr_ok self dropping_bus ConnectionError before 2).
  apply (listen_fails dropping_bus ConnectionError before
           [Ok {| msg_type := "message"; msg_channel := "tower-ai-feed";
                  msg_data := "tock" |}]); reflexivity.
Defined.


(** ** The rate limiter and the cache *)

Local Open Scope Z_scope.

Section string_facts.
Implicit Types (s t p : string) (c : ascii).

Lemma pretty_N_char_decimal (x : N) : decimal_char (pretty_N_char x) = true.
Proof. unfold pretty_N_char. by repeat case_match. Qed.

Lemma pretty_N_go_decimal (x : N) s :
  s ≠ EmptyString -> all_chars decimal_char s = true ->
  pretty_N_go x s ≠ EmptyString /\ all_chars decimal_char (pretty_N_go x s) = true.
Proof.
  revert s. induction (N.lt_wf_0 x) as [x _ IH]; intros s Hne Hall.
  assert (x = 0 \/ 0 < x)%N as [->|Hpos] by lia.
  - by rewrite pretty_N_go_0.
  - rewrite pretty_N_go_step by done. apply IH.
    + by apply N.div_lt.
    + done.
    + cbn. by rewrite pretty_N_char_decimal.
Qed.

Lemma pretty_N_decimal (x : N) :
  pretty x ≠ EmptyString /\ all_chars decimal_char (pretty x) = true.
Proof.
  unfold pretty, pretty_N. case_decide as Hx; [done|].
  rewrite pretty_N_go_step by lia. apply pretty_N_go_decimal; [done|].
  cbn. by rewrite pretty_N_char_decimal.
Qed.

Lemma pretty_Z_decimal (x : Z) :
  pretty x ≠ EmptyString /\ all_chars decimal_char (pretty x) = true.
Proof.
  destruct x as [|p|p]; unfold pretty, pretty_Z.
  - done.
  - apply pretty_N_decimal.
  - split; [done|]. cbn. apply pretty_N_decimal.
Qed.

(** A needle that starts with a slash is not found inside a decimal. *)
Lemma str_in_skip_decimal p s t :
  all_chars decimal_char s = true ->
  str_in (String "/" p) (s +:+ t) = str_in (String "/" p) t.
Proof.
  induction s as [|c s IH]; intros Hall; [done|].
  cbn in Hall. apply andb_prop in Hall as [Hc Hall].
  change (String c s +:+ t) with (String c (s +:+ t)).
  cbn [str_in startswith]. rewrite IH by done.
  destruct (Ascii.eqb_spec "/" c) as [<-|_]; [done|]. done.
Qed.
End string_facts.

Lemma pulse_path_matches_nothing (floor_id : Z) :
  Forall (fun '(pattern, _) => pattern_matches pattern (floor_pulse_path floor_id) = false)
         RATE_LIMITS.
Proof.
  destruct (pretty_Z_decimal floor_id) as [Hne Hall].
  unfold floor_pulse_path. destruct (pretty floor_id) as [|c d] eqn:Hd; [done|].
  cbn in Hall. apply andb_prop in Hall as [Hc Hall].
  assert (Hcons : forall a s t, String a s +:+ t = String a (s +:+ t)) by done.
  assert (Hnil : forall t, EmptyString +:+ t = t) by done.
  rewrite !Hcons, Hnil.
  destruct c as [[] [] [] [] [] [] [] []]; vm_compute in Hc; try discriminate Hc.
  all: unfold RATE_LIMITS;
    repeat (apply Forall_cons; split); [..|by apply Forall_nil];
    unfold pattern_matches; cbn; rewrite ?Hnil; cbn;
    rewrite str_in_skip_decimal by done; done.
Qed.


Section limiter_facts.
Implicit Types (r : Redis) (now : Z) (path identifier key : string).

Lemma string_length_app (s t : string) :
  String.length (s +:+ t) = (String.length s + String.length t)%nat.
Proof. induction s as [|c s IH]; [done|]. cbn. by rewrite <- IH. Qed.

Lemma string_app_inj_r (s s' t : string) : s +:+ t = s' +:+ t -> s = s'.
Proof.
  revert s'. induction s as [|c s IH]; intros [|c' s'] Heq.
  - done.
  - apply (f_equal String.length) in Heq.
    rewrite !string_length_app in Heq. cbn in Heq. lia.
  - apply (f_equal String.length) in Heq.
    rewrite !string_length_app in Heq. cbn in Heq. lia.
  - change (String c s +:+ t) with (String c (s +:+ t)) in Heq.
    change (String c' s' +:+ t) with (String c' (s' +:+ t)) in Heq.
    injection Heq as -> Heq. f_equal. by apply IH.
Qed.

Lemma rate_key_inj path path' identifier :
  rate_key path identifier = rate_key path' identifier <-> path = path'.
Proof.
  split; [|by intros ->]. unfold rate_key. intros Heq.
  apply (inj (String.app "rate:")) in Heq.
  by apply string_app_inj_r in Heq.
Qed.

Lemma check_limits_first_match now limits path key :
  check_limits now limits path key =
    match first_match limits path with
    | Some (limit, window) =>
        count ← redis_incr now key;
        _ ← (if count =? 1 then redis_expire now key window else mret true);
        mret (count <=? limit)
    | None => mret true
    end.
Proof.
  induction limits as [|[pattern [limit window]] rest IH]; cbn; [done|].
  by destruct (pattern_matches pattern path).
Qed.

Lemma first_match_None limits path :
  Forall (fun '(pattern, _) => pattern_matches pattern path = false) limits ->
  first_match limits path = None.
Proof.
  induction 1 as [|[pattern lw] rest Hp _ IH]; cbn; [done|]. by rewrite Hp.
Qed.

Lemma first_match_window path limit window :
  first_match RATE_LIMITS path = Some (limit, window) -> window = 60.
Proof.
  unfold RATE_LIMITS. cbn.
  repeat (case_match; [by intros [= _ <-]|]). done.
Qed.
End limiter_facts.


(** C3, as stated, fails: with the server unreachable, [cache_get],
    [cache_set] and [check_rate_limit] raise. *)
Lemma offline_backend_raises :
  cache_get 0 "intel:live" offline = (Raise ConnectionError, offline) /\
  cache_set 0 "intel:live" "{}" 15 offline = (Raise ConnectionError, offline) /\
  check_rate_limit 0 "/api/analytics/live" "userA" offline =
    (Raise ConnectionError, offline).
Proof. by vm_compute. Qed.

(** C3, amended. With the server unreachable, [cache_get] and [cache_set]
    raise the connection error and leave the server as it is, and so does
    [check_rate_limit] on a path that matches a configured pattern; on a
    path that matches none it returns [True] without a command. *)
Theorem backend_error_propagates
    (now : Z) (key v : string) (ttl : Z) (path identifier : string) (r : Redis) :
  online r = false ->
  cache_get now key r = (Raise ConnectionError, r) /\
  cache_set now key v ttl r = (Raise ConnectionError, r) /\
  check_rate_limit now path identifier r =
    (match first_match RATE_LIMITS path with
     | Some _ => Raise ConnectionError
     | None => Ok true
     end, r).
Proof.
  intros Hoff. repeat split.
  - unfold cache_get, redis_get. by rewrite Hoff.
  - unfold cache_set, redis_setex. by rewrite Hoff.
  - unfold check_rate_limit. rewrite check_limits_first_match.
    destruct (first_match RATE_LIMITS path) as [[limit window]|]; [|done].
    unfold mbind, M_bind, redis_incr. by rewrite Hoff.
Qed.

Lemma backend_error_propagates_witness :
  cache_get 0 "intel:live" offline = (Raise ConnectionError, offline) /\
  cache_set 0 "intel:live" "{}" 15 offline = (Raise ConnectionError, offline) /\
  check_rate_limit 0 "/api/bot/query" "userA:chat1" offline =
    (match first_match RATE_LIMITS "/api/bot/query" with
     | Some _ => Raise ConnectionError
     | None => Ok true
     end, offline).
Proof.
  apply (backend_error_propagates 0 "intel:live" "{}" 15 "/api/bot/query"
           "userA:chat1" offline).
  reflexivity.
Defined.

Lemma calls_unmatched times path identifier r :
  first_match RATE_LIMITS path = None ->
  calls times path identifier r = (replicate (length times) (Ok true), r).
Proof.
  intros Hnone. induction times as [|now times IH]; cbn [calls]; [done|].
  unfold check_rate_limit at 1. rewrite check_limits_first_match, Hnone.
  cbn. by rewrite IH.
Qed.

(** C5, on the code. The path that [get_floor_pulse] hands to the limiter
    matches no configured pattern, for any floor id: every call is allowed
    and no counter is touched, so the check of [get_floor_pulse] never
    refuses, and the 181st call in a window is allowed like the first. *)
Theorem pulse_limit_never_enforced
    (floor_id : Z) (sub : string) (times : list Z) (now : Z) (r : Redis) :
  calls times (floor_pulse_path floor_id) sub r =
    (replicate (length times) (Ok true), r) /\
  get_floor_pulse_check now floor_id sub r = (Ok true, r) /\
  (calls (replicate 181 now) (floor_pulse_path 16) "test_user" r).1 !! 180%nat =
    Some (Ok true).
Proof.
  assert (Hnone : forall f, first_match RATE_LIMITS (floor_pulse_path f) = None).
  { intros f. apply first_match_None, pulse_path_matches_nothing. }
  split; [|split].
  - by apply calls_unmatched.
  - unfold get_floor_pulse_check, check_rate_limit.
    by rewrite check_limits_first_match, Hnone.
  - rewrite calls_unmatched by done. cbn [fst].
    apply lookup_replicate_2. rewrite length_replicate. lia.
Qed.

(** C8, as stated, fails: two requests of one caller whose paths differ
    and match the same pattern count on two keys, one each; and the pulse
    requests for floors 2 and 4 count on no key at all. *)
Lemma distinct_paths_distinct_counters :
  let r0 := {| online := true; store := ∅ |} in
  let r1 := (check_rate_limit 0 "/api/bot/query" "userA" r0).2 in
  let r2 := (check_rate_limit 1 "/api/bot/query/v2" "userA" r1).2 in
  first_match RATE_LIMITS "/api/bot/query" = Some (15, 60) /\
  first_match RATE_LIMITS "/api/bot/query/v2" = Some (15, 60) /\
  counter 1 (rate_key "/api/bot/query" "userA") r2 = 1 /\
  counter 1 (rate_key "/api/bot/query/v2" "userA") r2 = 1 /\
  (check_rate_limit 2 (floor_pulse_path 2) "userA" r2).2 = r2 /\
  (check_rate_limit 2 (floor_pulse_path 4) "userA" r2).2 = r2.
Proof. by vm_compute. Qed.


Section counting.
Implicit Types (r : Redis) (now : Z) (path identifier key : string).

Lemma lookup_live_Some now key r e :
  lookup_live now key r = Some e ->
  store r !! key = Some e /\
  (forall t, expires_at e = Some t -> now < t).
Proof.
  unfold lookup_live. destruct (store r !! key) as [e'|]; [|done].
  destruct (expires_at e') as [t|] eqn:Ht.
  - destruct (now <? t) eqn:Hlt; [|done]. intros [= <-]. split; [done|].
    intros t' Ht'. rewrite Ht in Ht'. injection Ht' as <-. lia.
  - intros [= <-]. split; [done|]. intros t'. by rewrite Ht.
Qed.

Lemma lookup_live_insert now key r e :
  (forall t, expires_at e = Some t -> now < t) ->
  lookup_live now key (set_store r (<[key := e]> (store r))) = Some e.
Proof.
  intros Hlive. unfold lookup_live, set_store. cbn. rewrite lookup_insert_eq.
  destruct (expires_at e) as [t|] eqn:Ht; [|done].
  specialize (Hlive t eq_refl). by destruct (Z.ltb_spec now t); [|lia].
Qed.

(** What one matched call of the limiter does to an online server. *)
Lemma limited_call_online now limits path key limit window r :
  first_match limits path = Some (limit, window) ->
  0 < window ->
  online r = true ->
  check_limits now limits path key r =
    match lookup_live now key r with
    | None =>
        (Ok (1 <=? limit),
         set_store r (<[key := {| value := RInt 1;
                                  expires_at := Some (now + window) |}]> (store r)))
    | Some e =>
        match as_int (value e) with
        | Some n =>
            if n <? INT64_MAX then
              (Ok (n + 1 <=? limit),
               set_store r (<[key := {| value := RInt (n + 1);
                                        expires_at :=
                                          if n + 1 =? 1 then Some (now + window)
                                          else expires_at e |}]> (store r)))
            else (Raise ResponseError, r)
        | None => (Raise ResponseError, r)
        end
    end.
Proof.
  intros Hm Hw Hon. rewrite check_limits_first_match, Hm.
  unfold mbind, M_bind, mret, M_ret, redis_incr. rewrite Hon.
  assert (Hw' : (window <=? 0) = false) by lia.
  destruct (lookup_live now key r) as [e|] eqn:Hlive.
  - destruct (as_int (value e)) as [n|]; [|done].
    destruct (n <? INT64_MAX); [|done].
    destruct (lookup_live_Some _ _ _ _ Hlive) as [_ He].
    destruct (n + 1 =? 1) eqn:Hone.
    + unfold redis_expire. cbn [online set_store].
      rewrite Hon, lookup_live_insert by done. rewrite Hw'.
      unfold set_store. cbn [store value online]. by rewrite insert_insert_eq.
    + done.
  - cbn [Z.eqb Pos.eqb]. unfold redis_expire. cbn [online set_store].
    rewrite Hon, lookup_live_insert by done. rewrite Hw'.
    unfold set_store. cbn [store value online]. by rewrite insert_insert_eq.
Qed.
End counting.

(** C8, amended. A call on a path that matches a configured pattern, when
    it returns, has added one to the counter at the key made of the request
    path and the identity, and has touched no other key; for one identity,
    two paths share that key only if they are equal. *)
Theorem rate_counter_keyed_by_path
    (now : Z) (path path' identifier : string) (r : Redis) (allowed : bool) :
  first_match RATE_LIMITS path <> None ->
  (check_rate_limit now path identifier r).1 = Ok allowed ->
  let key := rate_key path identifier in
  let r' := (check_rate_limit now path identifier r).2 in
  counter now key r' = counter now key r + 1 /\
  (forall k, k <> key -> store r' !! k = store r !! k) /\
  (rate_key path' identifier = key <-> path' = path).
Proof.
  intros Hm Hok key r'. subst r'. revert Hok.
  destruct (first_match RATE_LIMITS path) as [[limit window]|] eqn:Hfm; [|done].
  pose proof (first_match_window _ _ _ Hfm) as ->.
  unfold check_rate_limit. fold key.
  destruct (online r) eqn:Hon.
  - rewrite (limited_call_online now RATE_LIMITS path key limit 60 r Hfm) by done.
    unfold counter at 2.
    destruct (lookup_live now key r) as [e|] eqn:Hlive.
    + destruct (as_int (value e)) as [n|]; [|done].
      destruct (n <? INT64_MAX); [|done].
      destruct (lookup_live_Some _ _ _ _ Hlive) as [_ He].
      intros _. cbn [snd]. repeat split.
      * unfold counter. rewrite lookup_live_insert; [done|]. cbn.
        destruct (n + 1 =? 1); [intros t [= <-]; lia | done].
      * intros k Hk. cbn. by rewrite lookup_insert_ne.
      * by apply rate_key_inj.
      * intros ->. done.
    + intros _. cbn [snd]. repeat split.
      * unfold counter. rewrite lookup_live_insert; [done|]. cbn.
        intros t [= <-]. lia.
      * intros k Hk. cbn. by rewrite lookup_insert_ne.
      * by apply rate_key_inj.
      * intros ->. done.
  - rewrite check_limits_first_match, Hfm.
    unfold mbind, M_bind, redis_incr. by rewrite Hon.
Qed.

Lemma rate_counter_keyed_by_path_witness :
  let r := {| online := true; store := ∅ |} in
  let key := rate_key "/api/bot/query" "userA:chat1" in
  let r' := (check_rate_limit 0 "/api/bot/query" "userA:chat1" r).2 in
  counter 0 key r' = counter 0 key r + 1 /\
  (forall k, k <> key -> store r' !! k = store r !! k) /\
  (rate_key "/api/bot/query/v2" "userA:chat1" = key <->
   "/api/bot/query/v2" = "/api/bot/query").
Proof.
  intros r.
  apply (rate_counter_keyed_by_path 0 "/api/bot/query" "/api/bot/query/v2"
           "userA:chat1" r true).
  - by vm_compute.
  - by vm_compute.
Defined.


Section window.
Variables (path identifier : string) (limit window : Z).
Hypothesis Hmatch : first_match RATE_LIMITS path = Some (limit, window).

Let key := rate_key path identifier.

Lemma window_open_counts (times : list Z) (n : nat) (t : Z) (r : Redis) :
  online r = true ->
  store r !! key = Some {| value := RInt (Z.of_nat n); expires_at := Some t |} ->
  (1 <= n)%nat ->
  Forall (fun now => now < t) times ->
  Z.of_nat (n + length times) < INT64_MAX ->
  exists r',
    calls times path identifier r = (answers limit (S n) (length times), r') /\
    online r' = true /\
    store r' !! key =
      Some {| value := RInt (Z.of_nat (n + length times)); expires_at := Some t |}.
Proof.
  pose proof (first_match_window _ _ _ Hmatch) as Hw.
  revert n r. induction times as [|now times IH]; intros n r Hon Hkey Hn Hin Hmax.
  - exists r. cbn. by rewrite Nat.add_0_r.
  - apply Forall_cons in Hin as [Hnow Hin]. cbn [calls length] in *.
    unfold check_rate_limit at 1. fold key.
    rewrite (limited_call_online now RATE_LIMITS path key limit window r Hmatch)
      by (done || lia).
    assert (Hlive : lookup_live now key r =
              Some {| value := RInt (Z.of_nat n); expires_at := Some t |}).
    { unfold lookup_live. rewrite Hkey. cbn.
      by destruct (Z.ltb_spec now t); [|lia]. }
    rewrite Hlive. cbn [as_int value expires_at].
    replace (Z.of_nat n <? INT64_MAX) with true by lia.
    replace (Z.of_nat n + 1 =? 1) with false by lia.
    replace (Z.of_nat n + 1) with (Z.of_nat (S n)) by lia.
    destruct (IH (S n)
                (set_store r (<[key := {| value := RInt (Z.of_nat (S n));
                                          expires_at := Some t |}]> (store r))))
      as (r' & -> & Hon' & Hkey').
    + done.
    + cbn. by rewrite lookup_insert_eq.
    + lia.
    + done.
    + lia.
    + exists r'. split; [done|]. split; [done|].
      rewrite Hkey'. do 3 f_equal. lia.
Qed.

(** X10. Within one window the k-th call is allowed exactly when
    [k <= limit]; the first call after the window is counted from one
    again. *)
Lemma rate_limit_window (t0 later : Z) (times : list Z) (r : Redis) :
  online r = true ->
  lookup_live t0 key r = None ->
  Forall (fun now => now < t0 + window) times ->
  Z.of_nat (S (length times)) < INT64_MAX ->
  t0 + window <= later ->
  exists r',
    calls (t0 :: times) path identifier r = (answers limit 1 (S (length times)), r') /\
    (check_rate_limit later path identifier r').1 = Ok (1 <=? limit).
Proof.
  pose proof (first_match_window _ _ _ Hmatch) as Hw.
  intros Hon Hfresh Hin Hmax Hlater. cbn [calls].
  unfold check_rate_limit at 1. fold key.
  rewrite (limited_call_online t0 RATE_LIMITS path key limit window r Hmatch)
    by (done || lia).
  rewrite Hfresh.
  destruct (window_open_counts times 1 (t0 + window)
              (set_store r (<[key := {| value := RInt 1;
                                        expires_at := Some (t0 + window) |}]>
                              (store r))))
    as (r' & -> & Hon' & Hkey'); [done | by cbn; rewrite lookup_insert_eq
                                 | lia | done | cbn in *; lia |].
  exists r'. split; [done|].
  unfold check_rate_limit. fold key.
  rewrite (limited_call_online later RATE_LIMITS path key limit window r' Hmatch)
    by (done || lia).
  assert (Hgone : lookup_live later key r' = None).
  { unfold lookup_live. rewrite Hkey'. cbn.
    by destruct (Z.ltb_spec later (t0 + window)); [lia|]. }
  by rewrite Hgone.
Qed.
End window.

Example bot_query_window :
  (calls [0; 1; 1; 2; 3; 5; 8; 13; 21; 34; 40; 41; 42; 43; 44; 59; 59; 60]
         "/api/bot/query" "userA:chat1" {| online := true; store := ∅ |}).1 =
  (replicate 15 (Ok true) ++ [Ok false; Ok false; Ok true])%list.
Proof. by vm_compute. Qed.

(** * Further properties of the code *)

(** ** The connection manager *)

Lemma sent_message tr m (l : list nat) ev :
  ev ∈ sent tr m <$> l -> ev_message ev = m.
Proof.
  intros Hin. apply list_elem_of_fmap in Hin as (c & -> & _). done.
Qed.

(** X1. A broadcast on a channel during whose awaited sends no other
    coroutine changes the set of that channel runs to its end, having
    awaited exactly one send for each member the channel had when it began
    and none for any other connection; every send carries the message as it
    was given. *)
Theorem quiet_broadcast_sends_to_members_only
    (tr : transport) (self : ConnectionManager) (X : string) (m : payload)
    (members : gset nat) (awaits : list (list op)) :
  active_connections self !! X = Some members ->
  quiet X self (size members) awaits = true ->
  let r := broadcast_among tr self X m awaits in
  br_end r = Finished /\
  (forall c, attempts c (br_log r) = if decide (c ∈ members) then 1%nat else 0%nat) /\
  (forall ev, ev ∈ br_log r -> ev_message ev = m).
Proof.
  intros Hmem Hq.
  destruct (broadcast_among_quiet tr self X m members awaits Hmem Hq)
    as (failed & Hb & _).
  cbn zeta. rewrite Hb. cbn [br_end br_log br_manager]. split; [done|]. split.
  - intros c. rewrite attempts_sent by apply NoDup_elements.
    destruct (decide (c ∈ members)) as [Hc|Hc].
    + by rewrite decide_True by by apply elem_of_elements.
    + by rewrite decide_False by by rewrite elem_of_elements.
  - intros ev. apply sent_message.
Qed.

Lemma quiet_broadcast_sends_to_members_only_witness :
  let self := run init [OpConnect tr_ok 1%nat "tower-ai-feed";
                        OpConnect tr_ok 2%nat "floor-pulse-4"] in
  let r := broadcast_among (tr_broken 1%nat) self "tower-ai-feed" (Raw "tick")
             [[OpConnect tr_ok 3%nat "floor-pulse-4"; OpDisconnect 2%nat]] in
  br_end r = Finished /\
  (forall c, attempts c (br_log r) =
             if decide (c ∈ ({[1%nat]} : gset nat)) then 1%nat else 0%nat) /\
  (forall ev, ev ∈ br_log r -> ev_message ev = Raw "tick").
Proof.
  intros self.
  apply (quiet_broadcast_sends_to_members_only (tr_broken 1%nat) self
           "tower-ai-feed" (Raw "tick") {[1%nat]}).
  - by vm_compute.
  - by vm_compute.
Defined.

(** X2. After a broadcast on channel [X] during whose awaited sends no
    other coroutine changed the set of [X], the memberships are, in every
    channel, those the other coroutines left, minus the members of [X]
    whose send raised: a connection whose send returned, or that was not in
    [X], is where the other coroutines left it. *)
Theorem quiet_broadcast_removes_exactly_failed
    (tr : transport) (self : ConnectionManager) (X : string) (m : payload)
    (members : gset nat) (awaits : list (list op)) :
  reachable self ->
  active_connections self !! X = Some members ->
  quiet X self (size members) awaits = true ->
  let r := broadcast_among tr self X m awaits in
  let others := concat (take (size members) awaits) in
  br_end r = Finished /\
  forall Y c,
    in_channel (br_manager r) Y c <->
    in_channel (run self others) Y c /\ ~ (c ∈ members /\ fails tr m c).
Proof.
  intros Hreach Hmem Hq.
  destruct (broadcast_among_quiet tr self X m members awaits Hmem Hq)
    as (failed & Hb & Hf).
  cbn zeta. rewrite Hb. cbn [br_end br_log br_manager]. split; [done|].
  intros Y c.
  rewrite in_channel_disconnect_all
    by by apply consistent_run, reachable_consistent.
  by rewrite elem_of_elements, Hf.
Qed.

Lemma quiet_broadcast_removes_exactly_failed_witness :
  let self := run init [OpConnect tr_ok 1%nat "tower-ai-feed";
                        OpConnect tr_ok 2%nat "tower-ai-feed";
                        OpConnect tr_ok 2%nat "floor-pulse-4"] in
  let awaits := [[OpConnect tr_ok 3%nat "floor-pulse-4"]; []] in
  let r := broadcast_among (tr_broken 2%nat) self "tower-ai-feed" (Raw "tick")
             awaits in
  let others := concat (take (size ({[1%nat; 2%nat]} : gset nat)) awaits) in
  br_end r = Finished /\
  forall Y c,
    in_channel (br_manager r) Y c <->
    in_channel (run self others) Y c /\
    ~ (c ∈ ({[1%nat; 2%nat]} : gset nat) /\ fails (tr_broken 2%nat) (Raw "tick") c).
Proof.
  intros self awaits.
  apply (quiet_broadcast_removes_exactly_failed (tr_broken 2%nat) self
           "tower-ai-feed" (Raw "tick") {[1%nat; 2%nat]} awaits).
  - by eexists.
  - by vm_compute.
  - by vm_compute.
Defined.

(** X3. Connecting a connection that was not registered and disconnecting
    it again gives back the manager as it was, in both maps. *)
Theorem connect_disconnect_round_trip
    (tr : transport) (self self1 : ConnectionManager) (C : nat) (X : string) :
  reachable self ->
  user_channels self !! C = None ->
  connect tr self C X = Ok self1 ->
  disconnect self1 C = self.
Proof.
  intros Hreach Hfresh Hconn.
  pose proof (connect_Ok_accept _ _ _ _ _ Hconn) as Hacc.
  destruct (active_connections self !! X) as [members|] eqn:Hch.
  - rewrite (connect_known _ _ _ _ _ Hacc Hch) in Hconn. injection Hconn as <-.
    assert (HC : C ∉ members).
    { intros HC.
      destruct (proj1 (reachable_consistent _ Hreach X C)) as (chs & Hl & _);
        [by exists members | congruence]. }
    unfold disconnect. cbn [user_channels active_connections].
    rewrite lookup_insert_eq, Hfresh. cbn [default].
    rewrite (left_id_L ∅ (∪)), elements_singleton. cbn [foldl].
    unfold discard_from. rewrite lookup_insert_eq, insert_insert_eq.
    replace ((members ∪ {[C]}) ∖ {[C]}) with members by set_solver.
    rewrite insert_id by done. rewrite delete_insert_eq, delete_id by done.
    by destruct self.
  - rewrite (connect_unknown _ _ _ _ Hacc Hch) in Hconn. injection Hconn as <-.
    by apply disconnect_unregistered.
Qed.

Lemma connect_disconnect_round_trip_witness :
  let self := run init [OpConnect tr_ok 1%nat "tower-ai-feed"] in
  disconnect (step self (OpConnect tr_ok 2%nat "tower-ai-feed")) 2%nat = self.
Proof.
  intros self.
  apply (connect_disconnect_round_trip tr_ok self _ 2%nat "tower-ai-feed").
  - by eexists.
  - by vm_compute.
  - by vm_compute.
Defined.

(** X4. Connecting a connection to a channel it is already in changes
    nothing: the second [connect] returns the manager it was given. *)
Theorem connect_twice_same
    (tr tr' : transport) (self self1 : ConnectionManager) (C : nat) (X : string) :
  connect tr self C X = Ok self1 ->
  accept tr' C = Ok tt ->
  connect tr' self1 C X = Ok self1.
Proof.
  intros Hconn Hacc'.
  pose proof (connect_Ok_accept _ _ _ _ _ Hconn) as Hacc.
  destruct (active_connections self !! X) as [members|] eqn:Hch.
  - rewrite (connect_known _ _ _ _ _ Hacc Hch) in Hconn. injection Hconn as <-.
    erewrite connect_known; [|done|by cbn; rewrite lookup_insert_eq].
    cbn [user_channels active_connections]. rewrite lookup_insert_eq.
    cbn [default]. rewrite !insert_insert_eq. do 2 f_equal.
    + f_equal. set_solver.
    + f_equal. set_solver.
  - rewrite (connect_unknown _ _ _ _ Hacc Hch) in Hconn. injection Hconn as <-.
    by apply connect_unknown.
Qed.

Lemma connect_twice_same_witness :
  let self1 := step init (OpConnect tr_ok 1%nat "floor-pulse-9") in
  connect tr_ok self1 1%nat "floor-pulse-9" = Ok self1.
Proof.
  intros self1.
  apply (connect_twice_same tr_ok tr_ok init self1 1%nat "floor-pulse-9").
  - by vm_compute.
  - reflexivity.
Defined.

(** ** The endpoint handlers *)

Section handler_facts.
Implicit Types (self : ConnectionManager) (tr : transport).
Implicit Types (X channel : string) (C websocket : nat).

Lemma tower_feed_turn_shape websocket :
  turn_shape (fun tr self => tower_feed_turn tr self websocket) websocket.
Proof.
  intros tr self [message|e]; unfold tower_feed_turn; cbn [mbind result_bind];
    [|by right; right].
  unfold on_message.
  destruct (decide (dict_get message "type" = JStr "ping")).
  { left. unfold send_personal_message, try_except.
    destruct (send_text tr websocket _) as [[]|?]; cbn; eauto. }
  destruct (decide (dict_get message "type" = JStr "subscribe")); [|by left; eauto].
  destruct (truthy (dict_get message "channel")); [|by left; eauto].
  destruct (dict_get message "channel") as [| | |name| |]; try (by right; right).
  destruct (startswith "floor-pulse-" name); [|by left; eauto].
  destruct (connect tr self websocket name) as [self'|e'] eqn:Hc; cbn;
    [|by right; right].
  right. left. exists name, self'.
  unfold send_personal_message, try_except.
  destruct (send_text tr websocket _) as [[]|?]; cbn; eauto.
Qed.

Lemma floor_pulse_turn_shape websocket :
  turn_shape (fun tr self => floor_pulse_turn tr self websocket) websocket.
Proof.
  intros tr self [message|e]; unfold floor_pulse_turn; cbn [mbind result_bind];
    [|by right; right].
  destruct (decide (dict_get message "type" = JStr "ping")); [|by left; eauto].
  left. unfold send_personal_message, try_except.
  destruct (send_text tr websocket _) as [[]|?]; cbn; eauto.
Qed.

Lemma connect_reachable tr self websocket channel self' :
  reachable self -> connect tr self websocket channel = Ok self' -> reachable self'.
Proof.
  intros Hreach Hc.
  replace self' with (step self (OpConnect tr websocket channel))
    by (cbn; by rewrite Hc).
  by apply reachable_step.
Qed.

Lemma disconnect_reachable self websocket :
  reachable self -> reachable (disconnect self websocket).
Proof. intros Hreach. by apply (reachable_step self (OpDisconnect websocket)). Qed.

End handler_facts.

Lemma tower_channel_known : "tower-ai-feed" ∈ CHANNELS.
Proof. apply (bool_decide_unpack _). by vm_compute. Qed.

Lemma floor_channel_known (floor_id : Z) :
  floor_id ∈ FLOORS -> floor_channel floor_id ∈ CHANNELS.
Proof.
  unfold FLOORS, CHANNELS, floor_channel.
  rewrite !elem_of_cons, elem_of_nil.
  intros [->|[->|[->|[->|[->|[]]]]]];
    apply (bool_decide_unpack _); by vm_compute.
Qed.

(** X5. The floors that [websocket_floor_pulse] lets in are exactly the
    floors whose channel [floor-pulse-<floor>] is a key of the manager. *)
Theorem floor_whitelist_matches_channels (floor_id : Z) :
  floor_id ∈ FLOORS <-> floor_channel floor_id ∈ CHANNELS.
Proof.
  split; [apply floor_channel_known|].
  unfold FLOORS, CHANNELS, floor_channel.
  rewrite !elem_of_cons, elem_of_nil.
  intros [H|[H|[H|[H|[H|[H|[]]]]]]].
  - discriminate H.
  - change "floor-pulse-2" with ("floor-pulse-" +:+ pretty 2) in H.
    apply (inj (String.app "floor-pulse-")), (inj pretty) in H.
    subst. set_solver.
  - change "floor-pulse-4" with ("floor-pulse-" +:+ pretty 4) in H.
    apply (inj (String.app "floor-pulse-")), (inj pretty) in H.
    subst. set_solver.
  - change "floor-pulse-9" with ("floor-pulse-" +:+ pretty 9) in H.
    apply (inj (String.app "floor-pulse-")), (inj pretty) in H.
    subst. set_solver.
  - change "floor-pulse-15" with ("floor-pulse-" +:+ pretty 15) in H.
    apply (inj (String.app "floor-pulse-")), (inj pretty) in H.
    subst. set_solver.
  - change "floor-pulse-16" with ("floor-pulse-" +:+ pretty 16) in H.
    apply (inj (String.app "floor-pulse-")), (inj pretty) in H.
    subst. set_solver.
Qed.

(** ** The endpoint handlers among the other coroutines *)

Section frame_facts.
Implicit Types (self s : ConnectionManager) (tr : transport).
Implicit Types (X channel : string) (C websocket : nat).

Lemma agree_but_refl C s : agree_but C s s.
Proof. by intros Y c _. Qed.

Lemma agree_but_trans C s1 s2 s3 :
  agree_but C s1 s2 -> agree_but C s2 s3 -> agree_but C s1 s3.
Proof. intros H12 H23 Y c Hc. rewrite (H12 Y c Hc). by apply H23. Qed.

Lemma agree_but_connect tr s C channel s' :
  connect tr s C channel = Ok s' -> agree_but C s' s.
Proof.
  intros Hc Y c Hne. rewrite (in_channel_connect _ _ _ _ _ Y c Hc).
  split; [|by left]. by intros [?|(_ & ? & _)].
Qed.

Lemma agree_but_disconnect s C :
  consistent s -> agree_but C (disconnect s C) s.
Proof. intros Hcons Y c Hne. rewrite in_channel_disconnect by done. tauto. Qed.

(** What an operation does to the memberships of a connection depends on
    the memberships of that connection only. *)
Lemma agree_but_step C s s' o :
  reachable s -> reachable s' -> agree_but C s s' ->
  agree_but C (step s o) (step s' o).
Proof.
  intros Hr Hr' Hag Y c Hne.
  pose proof (reachable_consistent _ Hr) as Hcons.
  pose proof (reachable_consistent _ Hr') as Hcons'.
  destruct o as [tr ws ch|ws|tr ch m]; cbn [step].
  - destruct (connect tr s ws ch) as [s1|e] eqn:Hc.
    + pose proof (connect_Ok_accept _ _ _ _ _ Hc) as Hacc.
      destruct (connect tr s' ws ch) as [s1'|e'] eqn:Hc'.
      * rewrite (in_channel_connect _ _ _ _ _ Y c Hc),
                (in_channel_connect _ _ _ _ _ Y c Hc').
        rewrite (reachable_channels _ ch Hr), (reachable_channels _ ch Hr').
        by rewrite (Hag Y c Hne).
      * unfold connect in Hc'. rewrite Hacc in Hc'. cbn in Hc'.
        by destruct (active_connections s' !! ch).
    + destruct (connect tr s' ws ch) as [s1'|e'] eqn:Hc'; [|by apply Hag].
      pose proof (connect_Ok_accept _ _ _ _ _ Hc') as Hacc.
      unfold connect in Hc. rewrite Hacc in Hc. cbn in Hc.
      by destruct (active_connections s !! ch).
  - rewrite !in_channel_disconnect by done. by rewrite (Hag Y c Hne).
  - assert (Hb : forall s0, reachable s0 ->
              in_channel (step s0 (OpBroadcast tr ch m)) Y c <->
              in_channel s0 Y c /\ ~ (in_channel s0 ch c /\ fails tr m c)).
    { intros s0 Hr0. pose proof (reachable_consistent _ Hr0) as Hcons0. cbn [step].
      destruct (active_connections s0 !! ch) as [members|] eqn:Hch.
      - destruct (broadcast_known tr s0 ch m members Hch) as (failed & -> & Hf).
        rewrite in_channel_disconnect_all by done.
        rewrite elem_of_elements, Hf.
        assert (in_channel s0 ch c <-> c ∈ members) as ->; [|done].
        unfold in_channel. rewrite Hch. split; [by intros (? & [= <-] & ?)|eauto].
      - rewrite broadcast_unknown by done. split; [|tauto].
        intros Hin. split; [done|]. intros [(? & Hl & _) _]. congruence. }
    change (in_channel (step s (OpBroadcast tr ch m)) Y c <->
            in_channel (step s' (OpBroadcast tr ch m)) Y c).
    rewrite (Hb s Hr), (Hb s' Hr').
    by rewrite (Hag Y c Hne), (Hag ch c Hne).
Qed.

Lemma agree_but_run C s s' ops :
  reachable s -> reachable s' -> agree_but C s s' ->
  agree_but C (run s ops) (run s' ops).
Proof.
  revert s s'. induction ops as [|o ops IH]; intros s s' Hr Hr' Hag; [done|].
  change (agree_but C (run (step s o) ops) (run (step s' o) ops)).
  apply IH; [by apply reachable_step | by apply reachable_step
             | by apply agree_but_step].
Qed.

(** A handler changes the memberships of its own connection only: those of
    the others are what the other coroutines have made of them. *)
Lemma receive_loop_among_frame turn websocket turns last self base :
  turn_shape turn websocket ->
  reachable self -> reachable base -> agree_but websocket self base ->
  exists ops,
    ops `prefix_of` others_of turns last /\
    agree_but websocket (receive_loop_among turn self turns last).1.1
      (run base ops).
Proof.
  intros Hshape. revert self base.
  induction turns as [|[[others tr] frame] turns IH];
    intros self base Hreach Hbase Hag; cbn [receive_loop_among].
  - exists last. split; [done|]. cbn [fst]. by apply agree_but_run.
  - pose proof (reachable_run _ others Hreach) as Hreach0.
    pose proof (reachable_run _ others Hbase) as Hbase0.
    pose proof (agree_but_run websocket self base others Hreach Hbase Hag) as Hag0.
    assert (Hpre : forall ops, ops `prefix_of` others_of turns last ->
              (others ++ ops)%list `prefix_of`
                others_of ((others, tr, frame) :: turns) last).
    { intros ops Hp. unfold others_of. cbn [fmap list_fmap concat fst].
      rewrite <- app_assoc. by apply prefix_app. }
    assert (Hrun : forall ops, run base (others ++ ops) = run (run base others) ops).
    { intros ops. unfold run. by rewrite foldl_app. }
    destruct (Hshape tr (run self others) frame)
      as [[log ->]|[(ch & self' & log & Hc & ->)| ->]].
    + destruct (IH (run self others) (run base others) Hreach0 Hbase0 Hag0)
        as (ops & Hp & Hfr).
      destruct (receive_loop_among turn (run self others) turns last)
        as [[s l] e]. cbn [fst] in *.
      exists (others ++ ops)%list. split; [by apply Hpre|]. by rewrite Hrun.
    + destruct (IH self' (run base others)
                  (connect_reachable _ _ _ _ _ Hreach0 Hc) Hbase0) as (ops & Hp & Hfr).
      { eapply agree_but_trans; [by eapply agree_but_connect | done]. }
      destruct (receive_loop_among turn self' turns last) as [[s l] e].
      cbn [fst] in *.
      exists (others ++ ops)%list. split; [by apply Hpre|]. by rewrite Hrun.
    + cbn [fst]. exists others. split.
      * unfold others_of. cbn [fmap list_fmap concat fst].
        rewrite <- app_assoc. by apply prefix_app_r.
      * eapply agree_but_trans; [|done].
        by apply agree_but_disconnect, reachable_consistent.
Qed.

Lemma serve_among_frame turn before tr self websocket X welcome turns last :
  turn_shape turn websocket ->
  reachable self ->
  exists ops,
    ops `prefix_of` (before ++ others_of turns last)%list /\
    agree_but websocket
      (hr_manager (serve_among turn before tr self websocket X welcome turns last))
      (run self ops).
Proof.
  intros Hshape Hreach. unfold serve_among.
  pose proof (reachable_run _ before Hreach) as Hreach0.
  destruct (connect tr (run self before) websocket X) as [self1|e] eqn:Hc.
  - assert (Hev : exists ev, send_personal_message tr welcome websocket = Ok ev).
    { unfold send_personal_message, try_except.
      destruct (send_text tr websocket welcome) as [[]|?]; cbn; eauto. }
    destruct Hev as [ev ->].
    destruct (receive_loop_among_frame turn websocket turns last self1
                (run self before) Hshape
                (connect_reachable _ _ _ _ _ Hreach0 Hc) Hreach0
                (agree_but_connect _ _ _ _ _ Hc)) as (ops & Hp & Hfr).
    destruct (receive_loop_among turn self1 turns last) as [[s l] e].
    cbn [fst hr_manager] in *.
    exists (before ++ ops)%list. split; [by apply prefix_app|].
    unfold run in *. by rewrite foldl_app.
  - cbn [hr_manager]. exists before. split; [by apply prefix_app_r|].
    apply agree_but_refl.
Qed.
End frame_facts.

Section handler_among_facts.
Implicit Types (self : ConnectionManager) (tr : transport).
Implicit Types (X channel : string) (C websocket : nat).

(** The loop of a handler that is alone on the manager is the loop among
    coroutines that do nothing. *)
Lemma receive_loop_among_alone turn self
    (turns : list (transport * result (gmap string json))) :
  receive_loop_among turn self ((fun t => ([], t.1, t.2)) <$> turns) [] =
  receive_loop turn self turns.
Proof.
  revert self. induction turns as [|[tr frame] turns IH]; intros self; [done|].
  cbn [fmap list_fmap receive_loop_among receive_loop fst snd].
  change (run self []) with self.
  destruct (turn tr self frame) as [[self' log] continue].
  destruct continue; [|done].
  fold (fmap (M:=list) (fun t : transport * result (gmap string json) =>
                          (@nil op, t.1, t.2))).
  by rewrite IH.
Qed.

Lemma receive_loop_among_post turn websocket X turns last self :
  turn_shape turn websocket ->
  reachable self ->
  let res := receive_loop_among turn self turns last in
  reachable res.1.1 /\
  (res.2 = Returned ->
     (forall Y, ~ in_channel res.1.1 Y websocket) /\
     user_channels res.1.1 !! websocket = None) /\
  (res.2 = Waiting ->
     in_channel self X websocket ->
     Forall (keeps websocket) (others_of turns last) ->
     in_channel res.1.1 X websocket) /\
  (forall e, res.2 <> Escaped e).
Proof.
  intros Hshape. revert self.
  induction turns as [|[[others tr] frame] turns IH]; intros self Hreach;
    cbn [receive_loop_among].
  - cbn zeta. cbn [fst snd]. split; [by apply reachable_run|].
    split; [done|]. split; [|done].
    intros _ Hin Hk. unfold others_of in Hk. cbn in Hk.
    apply keeps_membership_run; [by apply reachable_consistent | done | done].
  - pose proof (reachable_run _ others Hreach) as Hreach0.
    assert (Hsplit : forall P : op -> Prop,
              Forall P (others_of ((others, tr, frame) :: turns) last) ->
              Forall P others /\ Forall P (others_of turns last)).
    { intros P. unfold others_of. cbn [fmap list_fmap concat fst].
      rewrite <- app_assoc. apply Forall_app. }
    destruct (Hshape tr (run self others) frame)
      as [[log ->]|[(ch & self' & log & Hc & ->)| ->]].
    + specialize (IH (run self others) Hreach0).
      destruct (receive_loop_among turn (run self others) turns last)
        as [[s l] e]. cbn zeta in *. cbn [fst snd] in *.
      destruct IH as (H1 & H2 & H3 & H4).
      split; [done|]. split; [done|]. split; [|done].
      intros Hw Hin Hk. apply Hsplit in Hk as [Hk1 Hk2].
      apply H3; [done| |done].
      apply keeps_membership_run; [by apply reachable_consistent | done | done].
    + specialize (IH self' (connect_reachable _ _ _ _ _ Hreach0 Hc)).
      destruct (receive_loop_among turn self' turns last) as [[s l] e].
      cbn zeta in *. cbn [fst snd] in *.
      destruct IH as (H1 & H2 & H3 & H4).
      split; [done|]. split; [done|]. split; [|done].
      intros Hw Hin Hk. apply Hsplit in Hk as [Hk1 Hk2].
      apply H3; [done| |done].
      apply (in_channel_connect _ _ _ _ _ X websocket Hc). left.
      apply keeps_membership_run; [by apply reachable_consistent | done | done].
    + pose proof (reachable_consistent _ Hreach0) as Hcons.
      cbn zeta. cbn [fst snd].
      split; [by apply disconnect_reachable|]. split; [|split; [done|done]].
      intros _. split.
      * intros Y. rewrite in_channel_disconnect by done. tauto.
      * rewrite disconnect_user_channels. apply lookup_delete_eq.
Qed.

Lemma serve_among_post turn before tr self websocket X welcome turns last :
  turn_shape turn websocket ->
  reachable self -> X ∈ CHANNELS ->
  let r := serve_among turn before tr self websocket X welcome turns last in
  reachable (hr_manager r) /\
  (hr_end r = Returned ->
     (forall Y, ~ in_channel (hr_manager r) Y websocket) /\
     user_channels (hr_manager r) !! websocket = None) /\
  (hr_end r = Waiting ->
     Forall (keeps websocket) (others_of turns last) ->
     in_channel (hr_manager r) X websocket) /\
  (forall e, hr_end r = Escaped e -> hr_manager r = run self before).
Proof.
  intros Hshape Hreach HX. unfold serve_among.
  pose proof (reachable_run _ before Hreach) as Hreach0.
  destruct (connect tr (run self before) websocket X) as [self1|e] eqn:Hc; cbn zeta.
  - assert (Hev : exists ev, send_personal_message tr welcome websocket = Ok ev).
    { unfold send_personal_message, try_except.
      destruct (send_text tr websocket welcome) as [[]|?]; cbn; eauto. }
    destruct Hev as [ev ->].
    assert (Hin1 : in_channel self1 X websocket).
    { apply (in_channel_connect _ _ _ _ _ X websocket Hc). right.
      by rewrite reachable_channels. }
    pose proof (receive_loop_among_post turn websocket X turns last self1 Hshape
                  (connect_reachable _ _ _ _ _ Hreach0 Hc)) as Hpost.
    destruct (receive_loop_among turn self1 turns last) as [[s l] e].
    cbn zeta in Hpost. cbn [fst snd] in Hpost.
    destruct Hpost as (H1 & H2 & H3 & H4).
    cbn [hr_manager hr_end].
    split; [done|]. split; [done|]. split.
    + intros Hw Hk. by apply H3.
    + intros e' ->. by destruct (H4 e').
  - cbn [hr_manager hr_end]. split; [done|]. split; [done|]. split; done.
Qed.
End handler_among_facts.

(** X6. A run of [websocket_tower_feed] among the other coroutines, for a
    connection that was not registered, leaves a manager the operations
    could have produced, in which the memberships of the other connections
    are what the other coroutines have made of them. When the handler has
    returned the connection is in no channel and has no entry; while it
    waits for a frame the connection is in [tower-ai-feed], provided that
    since its registration no other coroutine has disconnected it, as the
    cleanup of a broadcast does after a send to it that raised; and if an
    exception escapes, the handler has not touched the manager. *)
Theorem tower_feed_registered_among_others
    (decode : string -> option (gmap string json)) (before : list op)
    (tr : transport) (self : ConnectionManager) (C : nat) (token : option string)
    (turns : list (list op * transport * result (gmap string json)))
    (last : list op) :
  reachable self ->
  user_channels self !! C = None ->
  let r := websocket_tower_feed_among decode before tr self C token turns last in
  reachable (hr_manager r) /\
  (exists ops,
     ops `prefix_of` (before ++ others_of turns last)%list /\
     agree_but C (hr_manager r) (run self ops)) /\
  (hr_end r = Returned ->
     (forall Y, ~ in_channel (hr_manager r) Y C) /\
     user_channels (hr_manager r) !! C = None) /\
  (hr_end r = Waiting ->
     Forall (keeps C) (others_of turns last) ->
     in_channel (hr_manager r) "tower-ai-feed" C) /\
  (forall e, hr_end r = Escaped e -> hr_manager r = run self before).
Proof.
  intros Hreach Hfresh.
  assert (Habs : forall Y, ~ in_channel self Y C).
  { intros Y HY.
    destruct (proj1 (reachable_consistent _ Hreach Y C) HY) as (chs & Hl & _).
    congruence. }
  assert (Hnone : exists ops : list op,
            ops `prefix_of` (before ++ others_of turns last)%list /\
            agree_but C self (run self ops)).
  { exists []. split; [apply prefix_nil | apply agree_but_refl]. }
  unfold websocket_tower_feed_among.
  destruct (token_missing token).
  { cbn. split; [done|]. split; [done|]. split; [done|]. split; done. }
  destruct (verify_ws_token decode (default EmptyString token)) as [jwt_payload|].
  - edestruct (serve_among_post (fun tr' self' => tower_feed_turn tr' self' C)
                 before tr self C "tower-ai-feed") as (H1 & H2 & H3 & H4);
      [apply tower_feed_turn_shape | done | apply tower_channel_known |].
    split; [exact H1|]. split; [|split; [exact H2|split; [exact H3|exact H4]]].
    apply serve_among_frame; [apply tower_feed_turn_shape | done].
  - cbn. split; [done|]. split; [done|]. split; [done|]. split; done.
Qed.

Lemma tower_feed_registered_among_others_witness :
  let decode := fun s : string =>
    if String.eqb s "good"
    then Some ({[ "aud" := JStr "frontier-dashboard"; "sub" := JStr "userA" ]}
               : gmap string json)
    else None in
  let self := run init [OpConnect tr_ok 1%nat "floor-pulse-4"] in
  let turns := [([OpConnect tr_ok 3%nat "tower-ai-feed"], tr_ok,
                 Ok ({[ "type" := JStr "ping" ]} : gmap string json));
                ([OpBroadcast (tr_broken 3%nat) "tower-ai-feed" (Raw "tick")],
                 tr_ok,
                 Ok (subscribe_message (JStr "floor-pulse-9")))] in
  let r := websocket_tower_feed_among decode [OpDisconnect 1%nat] tr_ok self 2%nat
             (Some "good") turns [OpConnect tr_ok 4%nat "floor-pulse-9"] in
  reachable (hr_manager r) /\
  (exists ops,
     ops `prefix_of`
       ([OpDisconnect 1%nat] ++
        others_of turns [OpConnect tr_ok 4%nat "floor-pulse-9"])%list /\
     agree_but 2%nat (hr_manager r) (run self ops)) /\
  (hr_end r = Returned ->
     (forall Y, ~ in_channel (hr_manager r) Y 2%nat) /\
     user_channels (hr_manager r) !! 2%nat = None) /\
  (hr_end r = Waiting ->
     Forall (keeps 2%nat)
       (others_of turns [OpConnect tr_ok 4%nat "floor-pulse-9"]) ->
     in_channel (hr_manager r) "tower-ai-feed" 2%nat) /\
  (forall e, hr_end r = Escaped e -> hr_manager r = run self [OpDisconnect 1%nat]).
Proof.
  intros decode self turns.
  apply (tower_feed_registered_among_others decode [OpDisconnect 1%nat] tr_ok self
           2%nat (Some "good") turns [OpConnect tr_ok 4%nat "floor-pulse-9"]).
  - by eexists.
  - by vm_compute.
Defined.

(** X7. The same for [websocket_floor_pulse] among the other coroutines:
    the memberships of the other connections are what the other coroutines
    have made of them; while the handler waits for a frame its floor is one
    of the floors let in and the connection is in the channel of that
    floor, provided that since its registration no other coroutine has
    disconnected it; when it has returned the connection is in no
    channel. *)
Theorem floor_pulse_registered_among_others
    (decode : string -> option (gmap string json)) (before : list op)
    (tr : transport) (self : ConnectionManager) (C : nat) (floor_id : Z)
    (token : option string)
    (turns : list (list op * transport * result (gmap string json)))
    (last : list op) :
  reachable self ->
  user_channels self !! C = None ->
  let r := websocket_floor_pulse_among decode before tr self C floor_id token
             turns last in
  reachable (hr_manager r) /\
  (exists ops,
     ops `prefix_of` (before ++ others_of turns last)%list /\
     agree_but C (hr_manager r) (run self ops)) /\
  (hr_end r = Returned ->
     (forall Y, ~ in_channel (hr_manager r) Y C) /\
     user_channels (hr_manager r) !! C = None) /\
  (hr_end r = Waiting ->
     floor_id ∈ FLOORS /\
     (Forall (keeps C) (others_of turns last) ->
      in_channel (hr_manager r) (floor_channel floor_id) C)) /\
  (forall e, hr_end r = Escaped e -> hr_manager r = run self before).
Proof.
  intros Hreach Hfresh.
  assert (Habs : forall Y, ~ in_channel self Y C).
  { intros Y HY.
    destruct (proj1 (reachable_consistent _ Hreach Y C) HY) as (chs & Hl & _).
    congruence. }
  assert (Hnone : exists ops : list op,
            ops `prefix_of` (before ++ others_of turns last)%list /\
            agree_but C self (run self ops)).
  { exists []. split; [apply prefix_nil | apply agree_but_refl]. }
  unfold websocket_floor_pulse_among.
  destruct (token_missing token).
  { cbn. split; [done|]. split; [done|]. split; [done|]. split; done. }
  destruct (verify_ws_token decode (default EmptyString token)) as [jwt_payload|].
  - case_bool_decide as Hfloor.
    + edestruct (serve_among_post (fun tr' self' => floor_pulse_turn tr' self' C)
                   before tr self C (floor_channel floor_id)) as (H1 & H2 & H3 & H4);
        [apply floor_pulse_turn_shape | done | by apply floor_channel_known |].
      split; [exact H1|]. split; [|split; [exact H2|split; [|exact H4]]].
      * apply serve_among_frame; [apply floor_pulse_turn_shape | done].
      * intros Hw. split; [done|]. by apply H3.
    + cbn. split; [done|]. split; [done|]. split; [done|]. split; done.
  - cbn. split; [done|]. split; [done|]. split; [done|]. split; done.
Qed.

Lemma floor_pulse_registered_among_others_witness :
  let decode := fun s : string =>
    if String.eqb s "good"
    then Some ({[ "aud" := JStr "frontier-dashboard" ]} : gmap string json)
    else None in
  let turns := [([OpConnect tr_ok 3%nat "floor-pulse-9"], tr_ok,
                 Ok ({[ "type" := JStr "ping" ]} : gmap string json))] in
  let r := websocket_floor_pulse_among decode [] tr_ok init 2%nat 9 (Some "good")
             turns [OpDisconnect 3%nat] in
  reachable (hr_manager r) /\
  (exists ops,
     ops `prefix_of` ([] ++ others_of turns [OpDisconnect 3%nat])%list /\
     agree_but 2%nat (hr_manager r) (run init ops)) /\
  (hr_end r = Returned ->
     (forall Y, ~ in_channel (hr_manager r) Y 2%nat) /\
     user_channels (hr_manager r) !! 2%nat = None) /\
  (hr_end r = Waiting ->
     9 ∈ FLOORS /\
     (Forall (keeps 2%nat) (others_of turns [OpDisconnect 3%nat]) ->
      in_channel (hr_manager r) (floor_channel 9) 2%nat)) /\
  (forall e, hr_end r = Escaped e -> hr_manager r = run init []).
Proof.
  intros decode turns.
  apply (floor_pulse_registered_among_others decode [] tr_ok init 2%nat 9
           (Some "good") turns [OpDisconnect 3%nat]).
  - by exists [].
  - by vm_compute.
Defined.

(** A broadcast whose send to the connection raises takes the connection
    out of its channel while its handler still waits for a frame. *)
Example cleanup_while_waiting :
  let decode := fun s : string =>
    if String.eqb s "good"
    then Some ({[ "aud" := JStr "frontier-dashboard" ]} : gmap string json)
    else None in
  let r := websocket_tower_feed_among decode [] tr_ok init 2%nat (Some "good") []
             [OpBroadcast (tr_broken 2%nat) "tower-ai-feed" (Raw "tick")] in
  hr_end r = Waiting /\ member (hr_manager r) "tower-ai-feed" 2%nat = false.
Proof. by vm_compute. Qed.

(** X8. Neither handler registers a connection whose token it has not
    verified: if a connection that was not registered is in some channel
    after a run, a token was given, it was not empty, it decoded, and its
    audience is ["frontier-dashboard"]. *)
Theorem handlers_register_only_verified
    (decode : string -> option (gmap string json)) (tr : transport)
    (self : ConnectionManager) (C : nat) (floor_id : Z) (token : option string)
    (turns : list (transport * result (gmap string json))) (Y : string) :
  reachable self ->
  user_channels self !! C = None ->
  in_channel (hr_manager (websocket_tower_feed decode tr self C token turns)) Y C \/
  in_channel (hr_manager (websocket_floor_pulse decode tr self C floor_id token turns)) Y C ->
  exists s jwt_payload,
    token = Some s /\ s <> EmptyString /\ decode s = Some jwt_payload /\
    dict_get jwt_payload "aud" = JStr "frontier-dashboard".
Proof.
  intros Hreach Hfresh.
  assert (Habs : ~ in_channel self Y C).
  { intros HY.
    destruct (proj1 (reachable_consistent _ Hreach Y C) HY) as (chs & Hl & _).
    congruence. }
  assert (Hver : token_missing token = false ->
                 forall p, verify_ws_token decode (default EmptyString token) = Some p ->
                 exists s jwt_payload,
                   token = Some s /\ s <> EmptyString /\ decode s = Some jwt_payload /\
                   dict_get jwt_payload "aud" = JStr "frontier-dashboard").
  { destruct token as [s|]; [|done]. cbn. intros Hs p.
    unfold verify_ws_token. destruct (decode s) as [q|] eqn:Hd; [|done].
    case_decide as Haud; [|done]. intros _. exists s, q.
    split; [done|]. split; [|done]. intros ->. done. }
  unfold websocket_tower_feed, websocket_floor_pulse.
  destruct (token_missing token); [by intros [?|?]|].
  destruct (verify_ws_token decode (default EmptyString token)) as [p|];
    [|by intros [?|?]].
  intros _. by apply (Hver eq_refl p).
Qed.

Lemma handlers_register_only_verified_witness :
  let decode := fun s : string =>
    if String.eqb s "good"
    then Some ({[ "aud" := JStr "frontier-dashboard" ]} : gmap string json)
    else None in
  exists s jwt_payload,
    Some "good" = Some s /\ s <> EmptyString /\ decode s = Some jwt_payload /\
    dict_get jwt_payload "aud" = JStr "frontier-dashboard".
Proof.
  intros decode.
  apply (handlers_register_only_verified decode tr_ok init 2%nat 9 (Some "good")
           [] "tower-ai-feed").
  - by exists [].
  - by vm_compute.
  - left. vm_compute. eexists. split; [reflexivity|].
    apply (bool_decide_unpack _). by vm_compute.
Defined.

(** ** The Redis listener *)

Lemma delivered_to_app C (l1 l2 : list send_event) :
  delivered_to C (l1 ++ l2)%list = (delivered_to C l1 ++ delivered_to C l2)%list.
Proof. unfold delivered_to. by rewrite filter_app, fmap_app. Qed.

Lemma delivered_to_sent tr m (l : list nat) C :
  NoDup l -> (forall c, send_text tr c m = Ok tt) ->
  delivered_to C (sent tr m <$> l) = if decide (C ∈ l) then [m] else [].
Proof.
  intros Hnd Hok. unfold delivered_to.
  induction Hnd as [|c l Hc Hnd IH]; cbn [fmap list_fmap].
  - by rewrite decide_False by set_solver.
  - destruct (decide (c = C)) as [->|Hne].
    + rewrite filter_cons_True by (unfold sent; by rewrite Hok).
      cbn [fmap list_fmap]. rewrite IH, decide_False by done.
      by rewrite decide_True by set_solver.
    + rewrite filter_cons_False by (cbn; tauto). rewrite IH.
      destruct (decide (C ∈ l)).
      * by rewrite decide_True by set_solver.
      * by rewrite decide_False by set_solver.
Qed.

(** The listener that is alone on the manager is the listener among
    coroutines that do nothing. *)
Lemma listen_loop_among_alone tr self (stream : list (result bus_message)) n k :
  let r := listen_loop tr self stream n k in
  let r' := listen_loop_among tr self ((fun item => ([], item, [])) <$> stream) in
  la_end r' = match lr_outcome r with Ok _ => Finished | Raise e => Raised e end /\
  la_manager r' = lr_manager r /\
  la_log r' = lr_log r.
Proof.
  revert self k. induction stream as [|[message|e] stream IH]; intros self k;
    cbn [fmap list_fmap listen_loop listen_loop_among]; [done| |done].
  change (run self []) with self.
  destruct (String.eqb (msg_type message) "message"); [|apply IH].
  destruct (broadcast_among_alone tr self (msg_channel message)
              (Raw (msg_data message))) as [Hend Hb].
  rewrite Hb, Hend. cbn zeta. cbn [lr_outcome lr_manager lr_log la_end la_manager la_log].
  destruct (IH (br_manager (broadcast_among tr self (msg_channel message)
                              (Raw (msg_data message)) [])) (S k)) as (H1 & H2 & H3).
  cbn zeta in *. by rewrite H1, H2, H3.
Qed.

(** ** The Redis listener among the other coroutines *)

Section listener_among_facts.
Implicit Types (self : ConnectionManager) (tr : transport).
Implicit Types (X : string) (C : nat).

Lemma apart_from_membership self o X C :
  consistent self -> apart_from C o ->
  in_channel (step self o) X C <-> in_channel self X C.
Proof.
  intros Hcons [Hk Hn]. destruct o as [tr ws ch|ws|tr ch m]; cbn in *.
  - destruct (connect tr self ws ch) as [self'|e] eqn:Hc; [|done].
    rewrite (in_channel_connect _ _ _ _ _ X C Hc).
    split; [|by left]. intros [?|(_ & ? & _)]; [done|congruence].
  - rewrite in_channel_disconnect by done. split; [tauto|].
    intros Hin. split; [done|congruence].
  - destruct (active_connections self !! ch) as [members|] eqn:Hch.
    + destruct (broadcast_known tr self ch m members Hch) as (failed & -> & Hf).
      rewrite in_channel_disconnect_all by done. split; [tauto|].
      intros Hin. split; [done|].
      rewrite elem_of_elements, Hf. intros [_ [e He]]. congruence.
    + by rewrite broadcast_unknown.
Qed.

Lemma apart_from_membership_run self ops X C :
  consistent self -> Forall (apart_from C) ops ->
  in_channel (run self ops) X C <-> in_channel self X C.
Proof.
  revert self. induction ops as [|o ops IH]; intros self Hcons Ha; [done|].
  apply Forall_cons in Ha as [Ho Ha].
  change (run self (o :: ops)) with (run (step self o) ops).
  rewrite IH by (by apply consistent_step || done).
  by apply apart_from_membership.
Qed.

Lemma member_in_channel self X C :
  member self X C = true <-> in_channel self X C.
Proof.
  unfold member. rewrite bool_decide_eq_true.
  symmetry. apply in_channel_channel_set.
Qed.

Lemma member_run self ops X C :
  consistent self -> Forall (apart_from C) ops ->
  member (run self ops) X C = member self X C.
Proof.
  intros Hcons Ha.
  pose proof (apart_from_membership_run self ops X C Hcons Ha) as Hiff.
  rewrite <- !member_in_channel in Hiff.
  destruct (member (run self ops) X C), (member self X C); try done.
  - by destruct (proj1 Hiff eq_refl).
  - by destruct (proj2 Hiff eq_refl).
Qed.

(** A broadcast that no coroutine disturbs and all of whose sends return:
    it ends, the manager is the one the other coroutines left, and a
    connection is delivered the message if it was a member. *)
Lemma broadcast_among_all_delivered tr self X m awaits C :
  (forall c m', send_text tr c m' = Ok tt) ->
  quiet X self (size (channel_set self X)) awaits = true ->
  let b := broadcast_among tr self X m awaits in
  br_end b = Finished /\
  br_manager b = run self (concat (take (size (channel_set self X)) awaits)) /\
  delivered_to C (br_log b) = if member self X C then [m] else [].
Proof.
  intros Hok Hq. cbn zeta.
  destruct (active_connections self !! X) as [members|] eqn:Hmem.
  - rewrite (channel_set_lookup _ _ _ Hmem) in *.
    destruct (broadcast_among_quiet tr self X m members awaits Hmem Hq)
      as (failed & -> & Hf).
    assert (failed = ∅) as ->.
    { apply set_eq. intros c. rewrite Hf. split; [|set_solver].
      intros [Hc [e He]]. rewrite Hok in He. done. }
    rewrite elements_empty. cbn [br_end br_manager br_log foldl].
    split; [done|]. split; [done|].
    rewrite delivered_to_sent by (apply NoDup_elements || intros; apply Hok).
    unfold member. rewrite Hmem. cbn [default].
    destruct (decide (C ∈ members)) as [HC|HC].
    + rewrite decide_True by by apply elem_of_elements.
      by rewrite bool_decide_eq_true_2.
    + rewrite decide_False by by rewrite elem_of_elements.
      by rewrite bool_decide_eq_false_2.
  - unfold broadcast_among, member, channel_set. rewrite Hmem.
    cbn [br_end br_manager br_log default].
    rewrite size_empty, take_0. cbn [concat].
    split; [done|]. split; [done|].
    by rewrite bool_decide_eq_false_2 by set_solver.
Qed.

Lemma listen_loop_among_forwards tr self
    (items : list (list op * bus_message * list (list op))) C :
  reachable self ->
  (forall c m, send_text tr c m = Ok tt) ->
  Forall (apart_from C) (around items) ->
  listener_quiet tr self items = true ->
  let r := listen_loop_among tr self (messages items) in
  la_end r = Finished /\
  delivered_to C (la_log r) =
    (fun msg => Raw (msg_data msg)) <$>
      filter (fun msg => msg_type msg = "message" /\
                         member self (msg_channel msg) C = true)
             ((fun t => t.1.2) <$> items).
Proof.
  intros Hreach Hok. revert self Hreach.
  induction items as [|[[others msg] awaits] items IH]; intros self Hreach Ha Hq;
    [done|].
  unfold around in Ha. cbn [fmap list_fmap concat fst snd] in Ha.
  apply Forall_app in Ha as [Ha Hrest]. apply Forall_app in Ha as [Ho Haw].
  fold (around items) in Hrest.
  pose proof (reachable_consistent _ Hreach) as Hcons.
  pose proof (reachable_run _ others Hreach) as Hreach0.
  pose proof (reachable_consistent _ Hreach0) as Hcons0.
  unfold messages. cbn [fmap list_fmap fst snd listen_loop_among].
  fold (messages items).
  cbn [listener_quiet] in Hq. cbn zeta in *.
  destruct (String.eqb_spec (msg_type msg) "message") as [Hty|Hty].
  - apply andb_true_iff in Hq as [Hq1 Hq2].
    destruct (broadcast_among_all_delivered tr (run self others) (msg_channel msg)
                (Raw (msg_data msg)) awaits C Hok Hq1) as (Hend & Hman & Hdel).
    rewrite Hend. cbn [la_end la_log].
    set (n := size (channel_set (run self others) (msg_channel msg))) in *.
    assert (Haw' : Forall (apart_from C) (concat (take n awaits))).
    { apply Forall_concat. apply Forall_take. by apply Forall_concat. }
    assert (Hreach1 : reachable
              (br_manager (broadcast_among tr (run self others) (msg_channel msg)
                             (Raw (msg_data msg)) awaits))).
    { rewrite Hman. by apply reachable_run. }
    destruct (IH _ Hreach1 Hrest Hq2) as (H1 & H2).
    split; [done|].
    rewrite delivered_to_app, Hdel, H2.
    rewrite (member_run self others _ C Hcons Ho).
    assert (Hsame : forall Y,
              member (br_manager (broadcast_among tr (run self others)
                        (msg_channel msg) (Raw (msg_data msg)) awaits)) Y C =
              member self Y C).
    { intros Y. rewrite Hman.
      rewrite (member_run _ _ Y C Hcons0 Haw').
      by apply member_run. }
    assert (Hfilter :
      filter (fun msg0 => msg_type msg0 = "message" /\
                member (br_manager (broadcast_among tr (run self others)
                          (msg_channel msg) (Raw (msg_data msg)) awaits))
                       (msg_channel msg0) C = true)
             ((fun t : list op * bus_message * list (list op) => t.1.2) <$> items) =
      filter (fun msg0 => msg_type msg0 = "message" /\
                member self (msg_channel msg0) C = true)
             ((fun t : list op * bus_message * list (list op) => t.1.2) <$> items)).
    { apply list_filter_iff. intros msg0. by rewrite Hsame. }
    rewrite Hfilter.
    destruct (member self (msg_channel msg) C) eqn:Hm.
    + by rewrite filter_cons_True by done.
    + rewrite filter_cons_False; [done|]. intros [_ ?]. congruence.
  - destruct (IH _ Hreach0 Hrest Hq) as (H1 & H2).
    split; [done|]. rewrite H2.
    rewrite filter_cons_False by (by intros [? _]).
    f_equal. apply list_filter_iff. intros msg0.
    by rewrite (member_run self others _ C Hcons Ho).
Qed.
End listener_among_facts.

(** X9. On a bus that yields messages without an error, with sends that
    return, and as long as no other coroutine changes the set of a channel
    during a broadcast on it, the listener among the other coroutines does
    not end with an exception; and a connection [C] that no other coroutine
    connects or disconnects meanwhile is delivered exactly the data of the
    items of type "message" on the channels it is in, verbatim and in the
    order of the bus. *)
Theorem listener_forwards_in_order_among
    (tr : transport) (self : ConnectionManager)
    (items : list (list op * bus_message * list (list op))) (C : nat) :
  reachable self ->
  (forall c m, send_text tr c m = Ok tt) ->
  Forall (apart_from C) (around items) ->
  listener_quiet tr self items = true ->
  let r := redis_listener_among tr self (Ok tt) (messages items) in
  la_end r = Finished /\
  delivered_to C (la_log r) =
    (fun msg => Raw (msg_data msg)) <$>
      filter (fun msg => msg_type msg = "message" /\
                         member self (msg_channel msg) C = true)
             ((fun t => t.1.2) <$> items).
Proof.
  intros Hreach Hok Ha Hq. unfold redis_listener_among.
  by apply listen_loop_among_forwards.
Qed.

Lemma listener_forwards_in_order_among_witness :
  let self := run init [OpConnect tr_ok 1%nat "tower-ai-feed";
                        OpConnect tr_ok 1%nat "floor-pulse-9";
                        OpConnect tr_ok 2%nat "floor-pulse-4"] in
  let items :=
    [ ([], {| msg_type := "subscribe"; msg_channel := "tower-ai-feed";
              msg_data := "1" |}, []);
      ([OpConnect tr_ok 3%nat "floor-pulse-9"],
       {| msg_type := "message"; msg_channel := "floor-pulse-9";
          msg_data := "a" |},
       [[OpConnect tr_ok 4%nat "tower-ai-feed"]; [OpDisconnect 2%nat]]);
      ([], {| msg_type := "message"; msg_channel := "floor-pulse-4";
              msg_data := "b" |}, []);
      ([OpDisconnect 3%nat],
       {| msg_type := "message"; msg_channel := "tower-ai-feed";
          msg_data := "c" |}, []) ] in
  let r := redis_listener_among tr_ok self (Ok tt) (messages items) in
  la_end r = Finished /\
  delivered_to 1%nat (la_log r) =
    (fun msg => Raw (msg_data msg)) <$>
      filter (fun msg => msg_type msg = "message" /\
                         member self (msg_channel msg) 1%nat = true)
             ((fun t => t.1.2) <$> items).
Proof.
  intros self items.
  apply (listener_forwards_in_order_among tr_ok self items 1%nat).
  - by eexists.
  - reflexivity.
  - repeat constructor; cbn; lia.
  - by vm_compute.
Defined.

(** A handler that connects during an awaited send of a broadcast ends the
    listener: [RuntimeError] leaves [broadcast] and, with it,
    [redis_listener], and the later messages are not forwarded. *)
Example listener_ended_by_connect :
  let self := run init [OpConnect tr_ok 1%nat "tower-ai-feed"] in
  let r := redis_listener_among tr_ok self (Ok tt)
             [ ([], Ok {| msg_type := "message"; msg_channel := "tower-ai-feed";
                          msg_data := "a" |},
                [[OpConnect tr_ok 2%nat "tower-ai-feed"]]);
               ([], Ok {| msg_type := "message"; msg_channel := "tower-ai-feed";
                          msg_data := "b" |}, []) ] in
  la_end r = Raised RuntimeError /\
  delivered_to 1%nat (la_log r) = [Raw "a"].
Proof. by vm_compute. Qed.

(** ** The rate limiter, the cache and an endpoint *)

Section store_facts.
Implicit Types (r : Redis) (now : Z) (path identifier key : string).

Lemma lookup_live_store now key r r' :
  store r !! key = store r' !! key ->
  lookup_live now key r = lookup_live now key r'.
Proof. intros Heq. unfold lookup_live. by rewrite Heq. Qed.

(** The limiter leaves the server up or down as it was and touches no key
    but its own. *)
Lemma check_limits_frame now limits path key r :
  online (check_limits now limits path key r).2 = online r /\
  forall k, k <> key ->
    store (check_limits now limits path key r).2 !! k = store r !! k.
Proof.
  rewrite check_limits_first_match.
  destruct (first_match limits path) as [[limit window]|]; [|done].
  unfold mbind, M_bind, mret, M_ret, redis_incr.
  destruct (online r) eqn:Hon; [|done].
  assert (Hexp : forall r1 count,
            online r1 = true ->
            (forall k, k <> key -> store r1 !! k = store r !! k) ->
            let res := (let (y, r') := (if count =? 1 then redis_expire now key window
                                        else fun r0 => (Ok true, r0)) r1 in
                        match y with
                        | Ok _ => (Ok (count <=? limit), r')
                        | Raise e => (Raise e, r')
                        end) in
            online res.2 = true /\
            forall k, k <> key -> store res.2 !! k = store r !! k).
  { intros r1 count Hon1 Hfr. destruct (count =? 1); [|done].
    unfold redis_expire. rewrite Hon1.
    destruct (lookup_live now key r1) as [e|]; [|done].
    destruct (window <=? 0); cbn.
    - split; [done|]. intros k Hk. rewrite lookup_delete_ne by done. by apply Hfr.
    - split; [done|]. intros k Hk. rewrite lookup_insert_ne by done. by apply Hfr. }
  destruct (lookup_live now key r) as [e|].
  - destruct (as_int (value e)) as [n|]; [|by split].
    destruct (n <? INT64_MAX); [|by split].
    apply Hexp; [done|]. intros k Hk. cbn. by rewrite lookup_insert_ne.
  - apply Hexp; [done|]. intros k Hk. cbn. by rewrite lookup_insert_ne.
Qed.

(** The answer of the limiter depends on the server only through its
    being up and through what is stored at the key. *)
Lemma check_limits_local now limits path key r r' :
  online r = online r' ->
  store r !! key = store r' !! key ->
  (check_limits now limits path key r).1 = (check_limits now limits path key r').1.
Proof.
  intros Hon Hst. rewrite !check_limits_first_match.
  destruct (first_match limits path) as [[limit window]|]; [|done].
  unfold mbind, M_bind, mret, M_ret, redis_incr.
  rewrite <- Hon, <- (lookup_live_store now key r r' Hst).
  destruct (online r) eqn:Hon1; [|done].
  assert (Hexp : forall r1 r2 count,
            online r1 = true -> online r2 = true ->
            store r1 !! key = store r2 !! key ->
            (let (y, r') := (if count =? 1 then redis_expire now key window
                             else fun r0 => (Ok true, r0)) r1 in
             match y with
             | Ok _ => (Ok (count <=? limit), r')
             | Raise e => (Raise e, r')
             end).1 =
            (let (y, r') := (if count =? 1 then redis_expire now key window
                             else fun r0 => (Ok true, r0)) r2 in
             match y with
             | Ok _ => (Ok (count <=? limit), r')
             | Raise e => (Raise e, r')
             end).1).
  { intros r1 r2 count Hon1' Hon2' Heq. destruct (count =? 1); [|done].
    unfold redis_expire. rewrite Hon1', Hon2'.
    rewrite (lookup_live_store now key r1 r2 Heq).
    destruct (lookup_live now key r2) as [e|]; [|done].
    by destruct (window <=? 0). }
  destruct (lookup_live now key r) as [e|].
  - destruct (as_int (value e)) as [n|]; [|done].
    destruct (n <? INT64_MAX); [|done].
    apply Hexp; [done | cbn; congruence | by cbn; rewrite !lookup_insert_eq].
  - apply Hexp; [done | cbn; congruence | by cbn; rewrite !lookup_insert_eq].
Qed.

Lemma rate_key_identifier_inj path identifier identifier' :
  rate_key path identifier = rate_key path identifier' -> identifier = identifier'.
Proof.
  unfold rate_key. intros Heq.
  by apply (inj (String.app "rate:")), (inj (String.app path)),
           (inj (String.app ":")) in Heq.
Qed.
End store_facts.

Lemma rate_limit_window_witness :
  exists r',
    calls [0; 10; 59] "/api/analytics/live" "userA" {| online := true; store := ∅ |} =
      (answers 240 1 3, r') /\
    (check_rate_limit 60 "/api/analytics/live" "userA" r').1 = Ok (1 <=? 240).
Proof.
  apply (rate_limit_window "/api/analytics/live" "userA" 240 60 eq_refl 0 60
           [10; 59] {| online := true; store := ∅ |}).
  - reflexivity.
  - reflexivity.
  - repeat constructor; lia.
  - vm_compute. reflexivity.
  - lia.
Defined.

(** X11. The limiter counts per caller: a call for one identity does not
    change the answer that a call on the same path for another identity
    gets, now or later. *)
Theorem rate_limit_identities_independent
    (now now' : Z) (path identifier identifier' : string) (r : Redis) :
  identifier <> identifier' ->
  (check_rate_limit now' path identifier'
     (check_rate_limit now path identifier r).2).1 =
  (check_rate_limit now' path identifier' r).1.
Proof.
  intros Hne. unfold check_rate_limit.
  destruct (check_limits_frame now RATE_LIMITS path (rate_key path identifier) r)
    as [Hon Hfr].
  apply check_limits_local; [done|].
  apply Hfr. intros Heq. by apply rate_key_identifier_inj in Heq.
Qed.

Lemma rate_limit_identities_independent_witness :
  (check_rate_limit 1 "/api/bot/query" "userB:chat1"
     (check_rate_limit 0 "/api/bot/query" "userA:chat1"
        {| online := true; store := ∅ |}).2).1 =
  (check_rate_limit 1 "/api/bot/query" "userB:chat1"
     {| online := true; store := ∅ |}).1.
Proof.
  apply (rate_limit_identities_independent 0 1 "/api/bot/query" "userA:chat1"
           "userB:chat1").
  intros H. discriminate H.
Defined.

(** The server refuses a ttl that is not positive and one that it cannot
    turn into milliseconds: the write raises and stores nothing. *)
Example cache_set_refuses_ttl :
  let r := {| online := true; store := ∅ |} in
  cache_set 100 "intel:live" "{}" INT64_MAX r = (Raise ResponseError, r) /\
  cache_set 100 "intel:live" "{}" 0 r = (Raise ResponseError, r) /\
  (cache_set 100 "intel:live" "{}" 15 r).1 = Ok tt.
Proof. by vm_compute. Qed.

(** X13. The limiter arms the expiry only on the call that counts one. A
    counter that stands at [n >= 1] without an expiry is never given one:
    once it has reached the limit, every further call on that path by that
    identity is refused, at whatever time it comes. *)
Theorem counter_without_expiry_never_resets
    (times : list Z) (path identifier : string) (limit window n : Z) (r : Redis) :
  first_match RATE_LIMITS path = Some (limit, window) ->
  online r = true ->
  store r !! rate_key path identifier =
    Some {| value := RInt n; expires_at := None |} ->
  1 <= n -> limit <= n ->
  n + Z.of_nat (length times) < INT64_MAX ->
  (calls times path identifier r).1 = replicate (length times) (Ok false).
Proof.
  intros Hm. pose proof (first_match_window _ _ _ Hm) as Hw.
  revert n r. induction times as [|now times IH]; intros n r Hon Hkey Hn Hl Hmax;
    cbn [calls length replicate]; [done|].
  unfold check_rate_limit at 1.
  rewrite (limited_call_online now RATE_LIMITS path _ limit window r Hm)
    by (done || lia).
  unfold lookup_live. rewrite Hkey. cbn [expires_at value as_int].
  cbn [length] in Hmax.
  replace (n <? INT64_MAX) with true by lia.
  replace (n + 1 =? 1) with false by lia.
  replace (n + 1 <=? limit) with false by lia.
  specialize (IH (n + 1)
    (set_store r (<[rate_key path identifier :=
                     {| value := RInt (n + 1); expires_at := None |}]> (store r)))).
  destruct (calls times path identifier _) as [answers' r'].
  cbn [fst] in *. f_equal. apply IH; [done | by cbn; rewrite lookup_insert_eq
                                      | lia | lia | lia].
Qed.


Lemma counter_without_expiry_never_resets_witness :
  (calls [0; 100; 100000] "/api/bot/query" "userA:chat1"
     {| online := true;
        store := {[ rate_key "/api/bot/query" "userA:chat1" :=
                    {| value := RInt 15; expires_at := None |} ]} |}).1 =
  replicate 3 (Ok false).
Proof.
  apply (counter_without_expiry_never_resets [0; 100; 100000] "/api/bot/query"
           "userA:chat1" 15 60 15).
  - reflexivity.
  - reflexivity.
  - vm_compute. reflexivity.
  - lia.
  - lia.
  - vm_compute. reflexivity.
Defined.

Lemma rate_key_not_live path identifier : rate_key path identifier <> "intel:live".
Proof. unfold rate_key. intros H. discriminate H. Qed.

Lemma check_rate_limit_keeps_cache now path identifier r :
  online (check_rate_limit now path identifier r).2 = online r /\
  store (check_rate_limit now path identifier r).2 !! "intel:live" =
    store r !! "intel:live".
Proof.
  unfold check_rate_limit.
  destruct (check_limits_frame now RATE_LIMITS path (rate_key path identifier) r)
    as [Hon Hfr].
  split; [done|]. apply Hfr. intros H. by apply (rate_key_not_live path identifier).
Qed.

(** X14. Once [get_live_analytics] has answered a miss from the store, a
    request that comes less than 15 seconds after the cache write and that
    the limiter lets through gets the same body from the cache, whatever
    the store would say or raise, and writes nothing; a request that the
    limiter refuses gets the 429 although the body is cached. *)
Theorem live_analytics_served_from_cache
    (now stored : Z) (sub body : string) (r r1 : Redis)
    (now' stored' : Z) (sub' : string) (query' : result string)
    (allowed : bool) (r2 : Redis) :
  online r = true ->
  body <> EmptyString ->
  lookup_live now "intel:live" r = None ->
  get_live_analytics now stored sub (Ok body) r = (Ok (Body body), r1) ->
  now' < stored + 15 ->
  check_rate_limit now' "/api/analytics/live" sub' r1 = (Ok allowed, r2) ->
  get_live_analytics now' stored' sub' query' r1 =
    (Ok (if allowed then Body body
         else HTTPException 429 "Rate limit exceeded"), r2).
Proof.
  intros Hon Hbody Hmiss Hfirst Hnow' Hcheck.
  assert (Hr1 : online r1 = true /\
                store r1 !! "intel:live" =
                  Some {| value := RStr body; expires_at := Some (stored + 15) |}).
  { revert Hfirst. unfold get_live_analytics, mbind, M_bind.
    destruct (check_rate_limit_keeps_cache now "/api/analytics/live" sub r)
      as [Hona Hsta].
    destruct (check_rate_limit now "/api/analytics/live" sub r) as [[[]|e] ra];
      cbn [negb fst snd] in *. 2,3: done.
    unfold cache_get, redis_get. rewrite Hona, Hon.
    rewrite (lookup_live_store now "intel:live" ra r Hsta), Hmiss. cbn [fmap option_fmap option_map].
    unfold cache_set, redis_setex. rewrite Hona, Hon.
    destruct (expire_ms stored 15) as [ms|]; [|done]. cbn.
    intros [= <-]. cbn. split; [congruence | by rewrite lookup_insert_eq]. }
  destruct Hr1 as [Hon1 Hst1].
  destruct (check_rate_limit_keeps_cache now' "/api/analytics/live" sub' r1)
    as [Hon2 Hst2].
  rewrite Hcheck in Hon2, Hst2. cbn [snd] in Hon2, Hst2.
  unfold get_live_analytics, mbind, M_bind. rewrite Hcheck.
  destruct allowed; cbn [negb]; [|done].
  unfold cache_get, redis_get. rewrite Hon2, Hon1.
  unfold lookup_live. rewrite Hst2, Hst1. cbn.
  replace (now' <? stored + 15) with true by lia. cbn.
  destruct (String.eqb_spec body EmptyString) as [->|_]; [done|]. done.
Qed.

Lemma live_analytics_served_from_cache_witness :
  let r := {| online := true; store := ∅ |} in
  let r1 := (get_live_analytics 100 101 "userA" (Ok "{}") r).2 in
  let r2 := (check_rate_limit 110 "/api/analytics/live" "userB" r1).2 in
  get_live_analytics 110 111 "userB" (Raise ConnectionError) r1 =
    (Ok (if true then Body "{}"
         else HTTPException 429 "Rate limit exceeded"), r2).
Proof.
  intros r r1 r2.
  apply (live_analytics_served_from_cache 100 101 "userA" "{}" r r1
           110 111 "userB" (Raise ConnectionError) true r2).
  - reflexivity.
  - intros H. discriminate H.
  - reflexivity.
  - by vm_compute.
  - lia.
  - by vm_compute.
Defined.

(** ** The authentication dependencies *)

(** X15. [verify_jwt] hands on a payload exactly when the token decodes to
    it, its audience is ["frontier-dashboard"], and its [exp] is either
    missing or falsy (zero among them) or a time that is not before now. *)
Theorem verify_jwt_grants_iff
    (jose_decode : string -> option (gmap string json)) (now : Z)
    (token : string) (payload : gmap string json) :
  verify_jwt jose_decode now token = Granted payload <->
  jose_decode token = Some payload /\
  dict_get payload "aud" = JStr "frontier-dashboard" /\
  (truthy (dict_get payload "exp") = false \/
   exists t, fromtimestamp (dict_get payload "exp") = Some t /\ now <= t * 1000000).
Proof.
  unfold verify_jwt, decode_token. split.
  - destruct (jose_decode token) as [p|]; cbn [mbind outcome_bind]; [|done].
    destruct (truthy (dict_get p "exp")) eqn:Hexp.
    + destruct (fromtimestamp (dict_get p "exp")) as [t|] eqn:Ht;
        cbn [mbind outcome_bind]; [|done].
      destruct (Z.ltb_spec (t * 1000000) now); [done|].
      case_decide as Haud; [|done]. intros [= <-].
      split; [done|]. split; [done|]. right. rewrite Ht. eauto.
    + cbn [mbind outcome_bind]. case_decide as Haud; [|done]. intros [= <-].
      split; [done|]. split; [done|]. by left.
  - intros (-> & Haud & Hexp). cbn [mbind outcome_bind].
    destruct Hexp as [->|(t & Ht & Hnow)].
    + cbn [mbind outcome_bind]. by rewrite decide_True.
    + rewrite Ht. destruct (truthy (dict_get payload "exp"));
        cbn [mbind outcome_bind].
      * destruct (Z.ltb_spec (t * 1000000) now); [lia|]. by rewrite decide_True.
      * by rewrite decide_True.
Qed.

(** X16. Behind [verify_jwt], [verify_admin] hands on the payload exactly
    when [verify_jwt] did and the payload has the role ["admin"] (a payload
    without a role counts as ["user"] and gets the 403), and
    [get_current_user] returns exactly the [sub] of a payload that
    [verify_jwt] handed on, when that [sub] is truthy. *)
Theorem dependencies_behind_verify_jwt
    (jose_decode : string -> option (gmap string json)) (now : Z)
    (token : string) (payload : gmap string json) (user_id : json) :
  ((verify_jwt jose_decode now token ≫= verify_admin) = Granted payload <->
   verify_jwt jose_decode now token = Granted payload /\
   payload !! "role" = Some (JStr "admin")) /\
  ((verify_jwt jose_decode now token ≫= get_current_user) = Granted user_id <->
   exists p, verify_jwt jose_decode now token = Granted p /\
             p !! "sub" = Some user_id /\ truthy user_id = true) /\
  (verify_jwt jose_decode now token = Granted payload ->
   payload !! "role" = None ->
   (verify_jwt jose_decode now token ≫= verify_admin) =
     Refused 403 "Admin access required").
Proof.
  split; [|split].
  - destruct (verify_jwt jose_decode now token) as [p| |]; cbn [mbind outcome_bind];
      [|by split; [|intros []]..].
    unfold verify_admin. split.
    + case_decide as Hrole; [|done]. intros [= <-]. split; [done|].
      destruct (p !! "role") as [v|]; cbn in Hrole; congruence.
    + intros [[= <-] Hrole]. rewrite Hrole. cbn. by rewrite decide_True.
  - destruct (verify_jwt jose_decode now token) as [p| |]; cbn [mbind outcome_bind];
      [|by split; [|intros (? & ? & _)]..].
    unfold get_current_user, dict_get. split.
    + destruct (p !! "sub") as [v|] eqn:Hsub; simpl.
      * destruct (truthy v) eqn:Hv; [|done]. intros [= <-]. eauto.
      * done.
    + intros (p' & [= <-] & Hsub & Hv). rewrite Hsub. simpl. by rewrite Hv.
  - intros -> Hrole. cbn [mbind outcome_bind]. unfold verify_admin.
    rewrite Hrole. cbn. by rewrite decide_False.
Qed.
